(** * Shortest and cheapest paths of [main.py]

    A shallow embedding of the path finder of [main.py]
    ([create_graph], [calculate_shortest_paths],
    [recalculate_neighbour_position], [get_best_path] and the two
    report functions) together with the properties its specification
    states about them.

    Python values are modelled as follows.
    - Vertex labels are strings.
    - A number is a Python integer or [float("inf")]: type [num].
      These are the numbers of the docstrings and those the engine creates
      itself; weights are integers, as [create_graph] builds them, and
      unbounded, as Python's are, so that [int] only tells the finite from
      the infinite.
    - The caller's graph is an insertion-ordered dictionary of
      insertion-ordered dictionaries: an association list, whose order is
      the iteration order of [for node in graph].  A list stands for a
      dictionary when its keys are pairwise distinct ([is_dict]).
    - The [nodes] table is only read and written by key: a [gmap].
    - An exception aborts the computation: type [outcome].
    - [create_graph] is a function of the rows read from the file, each an
      insertion-ordered dictionary from column names to text; the numbers
      it extracts are numpy's 64-bit integers. *)

From stdpp Require Import base option numbers list strings pretty gmap.

Local Open Scope Z_scope.

(** ** Exceptions and outcomes *)

Inductive exception :=
  | KeyError (key : string)
  | OverflowError
  | IndexError
  | TypeError.

(** [OutOfFuel] is not a Python exception: it marks a loop of the model
    that was cut before the Python loop would have stopped. *)
Inductive outcome (A : Type) :=
  | Ok (a : A)
  | Raise (e : exception)
  | OutOfFuel.
Arguments Ok {A} a.
Arguments Raise {A} e.
Arguments OutOfFuel {A}.

Definition bind {A B} (x : outcome A) (f : A → outcome B) : outcome B :=
  match x with
  | Ok a => f a
  | Raise e => Raise e
  | OutOfFuel => OutOfFuel
  end.

Notation "'let*' x ':=' c 'in' k" := (bind c (fun x => k))
  (at level 10, x name, c at level 100, k at level 200).
Notation "'let*' ( x , y ) ':=' c 'in' k" := (bind c (fun '(x, y) => k))
  (at level 10, x name, y name, c at level 100, k at level 200).

(** ** Numbers *)

Inductive num :=
  | Fin (z : Z)
  | Inf.

Module Num.
(** [a + b] *)
Definition add (a b : num) : num :=
  match a, b with
  | Fin x, Fin y => Fin (x + y)
  | _, _ => Inf
  end.

(** [a < b] *)
Definition ltb (a b : num) : bool :=
  match a, b with
  | Fin x, Fin y => x <? y
  | Fin _, Inf => true
  | Inf, _ => false
  end.

(** [a > b] *)
Definition gtb (a b : num) : bool := ltb b a.

(** [int(a)]: [int(float("inf"))] raises [OverflowError]. *)
Definition int (a : num) : outcome Z :=
  match a with
  | Fin z => Ok z
  | Inf => Raise OverflowError
  end.

Definition le (a b : num) : Prop :=
  match a, b with
  | Fin x, Fin y => x <= y
  | _, Inf => True
  | Inf, Fin _ => False
  end.

Definition finite (a : num) : Prop := ∃ z, a = Fin z.

Definition is_finite (a : num) : bool :=
  match a with Fin _ => true | Inf => false end.

Definition is_positive (a : num) : bool :=
  match a with Fin z => 0 <? z | Inf => false end.

Definition is_nonneg (a : num) : bool :=
  match a with Fin z => 0 <=? z | Inf => false end.
End Num.

(** ** Dictionaries that are iterated: association lists *)

Section Dict.
Context {V : Type}.

Definition keys (d : list (string * V)) : list string := map fst d.

(** [d.get(k)] *)
Fixpoint dict_lookup (d : list (string * V)) (k : string) : option V :=
  match d with
  | [] => None
  | (k', v) :: d' => if decide (k' = k) then Some v else dict_lookup d' k
  end.

(** [d[k]] *)
Definition getitem (d : list (string * V)) (k : string) : outcome V :=
  match dict_lookup d k with
  | Some v => Ok v
  | None => Raise (KeyError k)
  end.

(** [d[k] = v]: an existing key keeps its place, a new one goes last. *)
Fixpoint setitem (d : list (string * V)) (k : string) (v : V) : list (string * V) :=
  match d with
  | [] => [(k, v)]
  | (k', v') :: d' =>
      if decide (k' = k) then (k, v) :: d' else (k', v') :: setitem d' k v
  end.

(** [del d[k]], for a key that is present. *)
Fixpoint delitem (d : list (string * V)) (k : string) : list (string * V) :=
  match d with
  | [] => []
  | (k', v') :: d' =>
      if decide (k' = k) then d' else (k', v') :: delitem d' k
  end.

Fixpoint distinct (l : list string) : bool :=
  match l with
  | [] => true
  | k :: l' => bool_decide (k ∉ l') && distinct l'
  end.

Definition is_dict (d : list (string * V)) : bool := distinct (keys d).
End Dict.

(** ** The data model *)

Abbreviation vertex := string (only parsing).

(** The [metric] argument: ["distance"] or ["cost"]. *)
Inductive metric := Distance | Cost.

Module Edge.
(** [{"distance": d, "cost": c}] *)
Record t := Make { distance : num; cost : num }.

Definition get (m : metric) (e : t) : num :=
  match m with Distance => distance e | Cost => cost e end.
End Edge.

Module Node.
(** [{"cost": c, "distance": d, "best_neighbour": b}] *)
Record t := Make { cost : num; distance : num; best_neighbour : option vertex }.

(** [node[metric]] *)
Definition get (m : metric) (n : t) : num :=
  match m with Distance => distance n | Cost => cost n end.
End Node.

Definition adjacency := list (vertex * Edge.t).
Definition graph := list (vertex * adjacency).

(** [graph[u][v]], when both keys exist. *)
Definition edge (g : graph) (u v : vertex) : option Edge.t :=
  match dict_lookup g u with
  | Some adj => dict_lookup adj v
  | None => None
  end.

(** [nodes[k]] *)
Definition nodes_get (nodes : gmap vertex Node.t) (k : vertex) : outcome Node.t :=
  match nodes !! k with
  | Some n => Ok n
  | None => Raise (KeyError k)
  end.

(** ** [recalculate_neighbour_position] *)

(** The test of lines 119-120: the candidate of the run's metric is
    strictly below the neighbour's accumulator of that metric. *)
Definition improves (metric : metric) (nb : Node.t)
    (alternate_distance alternate_cost : num) : bool :=
  match metric with
  | Distance => Num.gtb (Node.distance nb) alternate_distance
  | Cost => Num.gtb (Node.cost nb) alternate_cost
  end.

(** The body of the [for neighbour_node in graph[current_node]] loop. *)
Definition relax (graph : graph) (current_node : vertex) (metric : metric)
    (nodes : gmap vertex Node.t) (neighbour_node : vertex)
    : outcome (gmap vertex Node.t) :=
  let* adj := getitem graph current_node in
  let* e := getitem adj neighbour_node in
  let* cur := nodes_get nodes current_node in
  let alternate_distance := Num.add (Edge.distance e) (Node.distance cur) in
  let alternate_cost := Num.add (Edge.cost e) (Node.cost cur) in
  let* nb := nodes_get nodes neighbour_node in
  if improves metric nb alternate_distance alternate_cost
  then
    let* d := Num.int alternate_distance in
    let* c := Num.int alternate_cost in
    Ok (<[neighbour_node := Node.Make (Fin c) (Fin d) (Some current_node)]> nodes)
  else Ok nodes.

Fixpoint relax_all (graph : graph) (current_node : vertex) (metric : metric)
    (nodes : gmap vertex Node.t) (neighbours : list vertex)
    : outcome (gmap vertex Node.t) :=
  match neighbours with
  | [] => Ok nodes
  | neighbour_node :: rest =>
      let* nodes' := relax graph current_node metric nodes neighbour_node in
      relax_all graph current_node metric nodes' rest
  end.

Definition recalculate_neighbour_position (graph : graph) (current_node : vertex)
    (nodes : gmap vertex Node.t) (metric : metric) : outcome (gmap vertex Node.t) :=
  let* adj := getitem graph current_node in
  relax_all graph current_node metric nodes (keys adj).

(** ** [calculate_shortest_paths] *)

(** Lines 80-84: the body of [for node in graph]. *)
Definition add_node (state : gmap vertex Node.t * list vertex) (node : vertex)
    : gmap vertex Node.t * list vertex :=
  let '(nodes, unvisited_nodes) := state in
  (<[node := Node.Make Inf Inf None]> nodes, unvisited_nodes ++ [node]).

(** Lines 76-84: one fresh entry per key, in the graph's order. *)
Definition initialise (graph : graph) : gmap vertex Node.t * list vertex :=
  fold_left add_node (keys graph) (∅, []).

(** Lines 86-87: [nodes[starting_vertex]["cost"] = 0] and the same for
    ["distance"]; the subscription [nodes[starting_vertex]] comes first. *)
Definition set_start (nodes : gmap vertex Node.t) (starting_vertex : vertex)
    : outcome (gmap vertex Node.t) :=
  let* n := nodes_get nodes starting_vertex in
  let nodes := <[starting_vertex := Node.Make (Fin 0) (Node.distance n) (Node.best_neighbour n)]> nodes in
  let* n := nodes_get nodes starting_vertex in
  Ok (<[starting_vertex := Node.Make (Node.cost n) (Fin 0) (Node.best_neighbour n)]> nodes).

(** Lines 93-96: the scan for the unvisited node of least metric. *)
Fixpoint find_nearest (metric : metric) (nodes : gmap vertex Node.t)
    (unvisited_nodes : list vertex) (nearest_node : vertex) (minimum_value : num)
    : outcome vertex :=
  match unvisited_nodes with
  | [] => Ok nearest_node
  | unvisited_node :: rest =>
      let* n := nodes_get nodes unvisited_node in
      if Num.ltb (Node.get metric n) minimum_value
      then find_nearest metric nodes rest unvisited_node (Node.get metric n)
      else find_nearest metric nodes rest nearest_node minimum_value
  end.

(** [l.remove(x)], for an [x] that occurs in [l]: drops its first occurrence. *)
Fixpoint list_remove (x : vertex) (l : list vertex) : list vertex :=
  match l with
  | [] => []
  | y :: l' => if decide (y = x) then l' else y :: list_remove x l'
  end.

(** Lines 90-100: one turn of the [while] loop, entered with a non-empty
    list whose head is [first]. *)
Definition iteration (metric : metric) (graph : graph)
    (nodes : gmap vertex Node.t) (unvisited_nodes : list vertex) (first : vertex)
    : outcome (gmap vertex Node.t * list vertex) :=
  let nearest_node := first in
  let* n := nodes_get nodes nearest_node in
  let minimum_value := Node.get metric n in
  let* nearest_node := find_nearest metric nodes unvisited_nodes nearest_node minimum_value in
  let current_node := nearest_node in
  let unvisited_nodes := list_remove current_node unvisited_nodes in
  let* nodes := recalculate_neighbour_position graph current_node nodes metric in
  Ok (nodes, unvisited_nodes).

(** Lines 89-102.  Every turn removes one element of [unvisited_nodes], so
    the length of the list is fuel enough (see [while_unvisited_fuel]). *)
Fixpoint while_unvisited (fuel : nat) (metric : metric) (graph : graph)
    (nodes : gmap vertex Node.t) (unvisited_nodes : list vertex)
    : outcome (gmap vertex Node.t) :=
  match unvisited_nodes with
  | [] => Ok nodes
  | first :: _ =>
      match fuel with
      | O => OutOfFuel
      | S fuel' =>
          let* (nodes', unvisited') := iteration metric graph nodes unvisited_nodes first in
          while_unvisited fuel' metric graph nodes' unvisited'
      end
  end.

Definition calculate_shortest_paths (metric : metric) (graph : graph)
    (starting_vertex : vertex) : outcome (gmap vertex Node.t) :=
  let '(nodes, unvisited_nodes) := initialise graph in
  let* nodes := set_start nodes starting_vertex in
  while_unvisited (length unvisited_nodes) metric graph nodes unvisited_nodes.

(** The loop state after [k] turns (or at exit, if the loop stops earlier). *)
Fixpoint turns (k : nat) (metric : metric) (graph : graph)
    (nodes : gmap vertex Node.t) (unvisited_nodes : list vertex)
    : outcome (gmap vertex Node.t * list vertex) :=
  match k with
  | O => Ok (nodes, unvisited_nodes)
  | S k' =>
      match unvisited_nodes with
      | [] => Ok (nodes, unvisited_nodes)
      | first :: _ =>
          let* (nodes', unvisited') := iteration metric graph nodes unvisited_nodes first in
          turns k' metric graph nodes' unvisited'
      end
  end.

(** The loop state [k] turns into the run of [calculate_shortest_paths]. *)
Definition run_state (k : nat) (metric : metric) (graph : graph)
    (starting_vertex : vertex) : outcome (gmap vertex Node.t * list vertex) :=
  let '(nodes, unvisited_nodes) := initialise graph in
  let* nodes := set_start nodes starting_vertex in
  turns k metric graph nodes unvisited_nodes.

(** ** [get_best_path] *)

(** Lines 136-142: the [while True] loop, which appends predecessors to
    [path] until one is [None].  The loop has no bound of its own, so the
    model takes fuel. *)
Fixpoint walk_back (fuel : nat) (nodes : gmap vertex Node.t)
    (destination : vertex) (path : list vertex) : outcome (list vertex) :=
  match fuel with
  | O => OutOfFuel
  | S fuel' =>
      let* n := nodes_get nodes destination in
      match Node.best_neighbour n with
      | None => Ok path
      | Some destination' => walk_back fuel' nodes destination' (path ++ [destination'])
      end
  end.

(** [s[:-1]] *)
Fixpoint drop_last (s : string) : string :=
  match s with
  | EmptyString => EmptyString
  | String c EmptyString => EmptyString
  | String c s' => String c (drop_last s')
  end.

(** Lines 143-147, on [path[::-1]]: every label followed by ["-"], less the
    last character. *)
Definition join_path (reversed_path : list vertex) : string :=
  drop_last
    (fold_left (fun detailed_path node => detailed_path +:+ (node +:+ "-")) reversed_path "").

(** The vertex sequence of the answer, source first: [path[::-1]]. *)
Definition best_path (fuel : nat) (nodes : gmap vertex Node.t) (destination : vertex)
    : outcome (list vertex) :=
  let* path := walk_back fuel nodes destination [destination] in
  Ok (rev path).

Definition get_best_path (fuel : nat) (nodes : gmap vertex Node.t) (destination : vertex)
    : outcome string :=
  let* reversed_path := best_path fuel nodes destination in
  Ok (join_path reversed_path).

(** ** The reports *)

Definition newline : string := String (Ascii.ascii_of_nat 10) EmptyString.

(** [str(a)], as an f-string prints a number. *)
Definition str (a : num) : string :=
  match a with
  | Fin z => pretty z
  | Inf => "inf"
  end.

(** The text both report functions print, which differs in its first word;
    [print] ends it with a newline of its own. *)
Definition report (kind : string) (source destination : vertex) (path : string)
    (distance cost : num) : string :=
  kind +:+ " path between " +:+ source +:+ " and " +:+ destination +:+ ":" +:+ newline +:+
  "Path: " +:+ path +:+ " " +:+ newline +:+
  "Distance: " +:+ str distance +:+ newline +:+
  "Cost of travel: " +:+ str cost +:+ newline +:+ newline.

(** [print_shortest_path] and [print_cheapest_path] return what they print.
    Their argument [graph] is the value of [create_graph()], and [fuel]
    bounds the loop of [get_best_path]. *)
Definition print_shortest_path (fuel : nat) (graph : graph) (source destination : vertex)
    : outcome string :=
  let* nodes := calculate_shortest_paths Distance graph source in
  let* path := get_best_path fuel nodes destination in
  let* n := nodes_get nodes destination in
  Ok (report "Shortest" source destination path (Node.distance n) (Node.cost n)).

Definition print_cheapest_path (fuel : nat) (graph : graph) (source destination : vertex)
    : outcome string :=
  let* nodes := calculate_shortest_paths Cost graph source in
  let* path := get_best_path fuel nodes destination in
  let* n := nodes_get nodes destination in
  Ok (report "Cheapest" source destination path (Node.distance n) (Node.cost n)).

(** ** The script *)

(** [sys.argv[i]] *)
Definition argv_get (argv : list string) (i : nat) : outcome string :=
  match argv !! i with
  | Some a => Ok a
  | None => Raise IndexError
  end.

(** Lines 182-185: the reports the script has printed, in order, and how
    it ends.  [graph] is the value of both calls of [create_graph()]. *)
Definition main (fuel : nat) (graph : graph) (argv : list string)
    : list string * outcome unit :=
  match (let* start := argv_get argv 1 in
         let* finish := argv_get argv 2 in
         Ok (start, finish)) with
  | Ok (start, finish) =>
      match print_shortest_path fuel graph start finish with
      | Ok shortest =>
          match print_cheapest_path fuel graph start finish with
          | Ok cheapest => ([shortest; cheapest], Ok tt)
          | Raise e => ([shortest], Raise e)
          | OutOfFuel => ([shortest], OutOfFuel)
          end
      | Raise e => ([], Raise e)
      | OutOfFuel => ([], OutOfFuel)
      end
  | Raise e => ([], Raise e)
  | OutOfFuel => ([], OutOfFuel)
  end.

(** ** [create_graph] *)

(** The class [[0-9]]. *)
Definition is_digit (c : Ascii.ascii) : bool :=
  (48 <=? Ascii.nat_of_ascii c)%nat && (Ascii.nat_of_ascii c <=? 57)%nat.

(** [re.findall("[0-9]+", values)]: the maximal runs of digits, from left
    to right; [run] is the run being read. *)
Fixpoint findall_digits (values : string) (run : string) : list string :=
  match values with
  | EmptyString => if decide (run = "") then [] else [run]
  | String c rest =>
      if is_digit c then findall_digits rest (run +:+ String c EmptyString)
      else if decide (run = "") then findall_digits rest ""
      else run :: findall_digits rest ""
  end.

(** [int(s)] for a string of digits. *)
Fixpoint int_of_digits (s : string) (acc : Z) : Z :=
  match s with
  | EmptyString => acc
  | String c rest => int_of_digits rest (10 * acc + (Z.of_nat (Ascii.nat_of_ascii c) - 48))
  end.

(** [numpy.array(strings).astype(int)]: 64-bit integers; a number that does
    not fit is refused. *)
Fixpoint astype_int (strings : list string) : outcome (list Z) :=
  match strings with
  | [] => Ok []
  | s :: rest =>
      let n := int_of_digits s 0 in
      if 2 ^ 63 <=? n then Raise OverflowError
      else let* numbers := astype_int rest in Ok (n :: numbers)
  end.

(** The product of two 64-bit integers wraps around. *)
Definition wrap64 (z : Z) : Z := (z + 2 ^ 63) mod 2 ^ 64 - 2 ^ 63.

(** A value of a row: the text read from the file or, once line 54 has
    replaced it, a dictionary of weights. *)
Inductive cell :=
  | Text (values : string)
  | Weights (e : Edge.t).

(** Lines 50-54, for one entry of [row.copy().items()]. *)
Definition convert_cell (row : list (string * cell)) (ending_point values : string)
    : outcome (list (string * cell)) :=
  let* numbers := astype_int (findall_digits values "") in
  if bool_decide (0 ∈ numbers) then Ok (delitem row ending_point)
  else
    match numbers with
    | n0 :: n1 :: _ =>
        Ok (setitem row ending_point
              (Weights (Edge.Make (Fin n0) (Fin (wrap64 (n0 * n1))))))
    | _ => Raise IndexError
    end.

(** Lines 47-54, over the entries after the first. *)
Fixpoint convert_cells (items : list (string * string)) (row : list (string * cell))
    : outcome (list (string * cell)) :=
  match items with
  | [] => Ok row
  | (ending_point, values) :: rest =>
      let* row := convert_cell row ending_point values in
      convert_cells rest row
  end.

(** Lines 47-57 for one row: its key in [connections] and its value there.
    A starting point that is not text cannot be a key. *)
Definition convert_row (row : list (string * string))
    : outcome (string * list (string * cell)) :=
  let* converted := convert_cells (tail row) (map (λ item, (item.1, Text item.2)) row) in
  let* starting_point := getitem converted "POINT" in
  match starting_point with
  | Text starting_point => Ok (starting_point, delitem converted "POINT")
  | Weights _ => Raise TypeError
  end.

Fixpoint add_rows (dictionary : list (list (string * string)))
    (connections : list (string * list (string * cell)))
    : outcome (list (string * list (string * cell))) :=
  match dictionary with
  | [] => Ok connections
  | row :: rest =>
      let* (starting_point, converted) := convert_row row in
      add_rows rest (setitem connections starting_point converted)
  end.

(** [create_graph], as a function of the rows that
    [get_dictionary_from_csv] returns. *)
Definition create_graph (dictionary : list (list (string * string)))
    : outcome (list (string * list (string * cell))) :=
  add_rows dictionary [].

(** The numbers read in a cell: [re.findall] and then [int]. *)
Definition readings (values : string) : list Z :=
  map (λ s, int_of_digits s 0) (findall_digits values "").

(** ** The vocabulary of the properties *)

(** [ensures x P E]: the computation [x] stops; if it returns, the value
    satisfies [P]; if it raises, the exception satisfies [E]. *)
Definition ensures {A} (x : outcome A) (P : A → Prop) (E : exception → Prop) : Prop :=
  match x with
  | Ok a => P a
  | Raise e => E e
  | OutOfFuel => False
  end.

(** The keys of [nodes] are the graph's, and the unvisited nodes are among
    them. *)
Definition dom_ok (g : graph) (nodes : gmap vertex Node.t) (unvisited : list vertex) : Prop :=
  (∀ v, is_Some (nodes !! v) ↔ v ∈ keys g) ∧ (∀ v, v ∈ unvisited → v ∈ keys g).

(** [chain nodes v tail]: following [best_neighbour] from [v] visits the
    vertices of [tail], in that order, and stops at one without
    predecessor. *)
Inductive chain (nodes : gmap vertex Node.t) : vertex → list vertex → Prop :=
  | chain_end v n :
      nodes !! v = Some n → Node.best_neighbour n = None → chain nodes v []
  | chain_step v n p tail :
      nodes !! v = Some n → Node.best_neighbour n = Some p →
      chain nodes p tail → chain nodes v (p :: tail).

(** The vertices of [p] are joined by edges of the graph, one after the
    other. *)
Fixpoint is_path (g : graph) (p : list vertex) : bool :=
  match p with
  | x :: ((y :: _) as p') => bool_decide (is_Some (edge g x y)) && is_path g p'
  | _ => true
  end.

(** The sum of the weights [w] of the edges along [p]. *)
Fixpoint path_sum (w : Edge.t → num) (g : graph) (p : list vertex) : num :=
  match p with
  | x :: ((y :: _) as p') =>
      match edge g x y with
      | Some e => Num.add (w e) (path_sum w g p')
      | None => Inf
      end
  | _ => Fin 0
  end.

(** [p] leads from [x] to [y]. *)
Definition path_from_to (g : graph) (x y : vertex) (p : list vertex) : Prop :=
  head p = Some x ∧ last p = Some y ∧ is_path g p = true.

Definition reachable (g : graph) (x y : vertex) : Prop := ∃ p, path_from_to g x y p.

(** Every edge of the graph satisfies [p]. *)
Definition all_edges (p : Edge.t → bool) (g : graph) : bool :=
  forallb (λ entry, forallb (λ item, p item.2) entry.2) g.

Definition positive_weights (g : graph) : bool :=
  all_edges (λ e, Num.is_positive (Edge.distance e) && Num.is_positive (Edge.cost e)) g.

Definition nonneg_weights (g : graph) : bool :=
  all_edges (λ e, Num.is_nonneg (Edge.distance e) && Num.is_nonneg (Edge.cost e)) g.

(** The weights are integers and those of the metric [m] are not negative:
    what Dijkstra's algorithm asks of a run that minimises [m]. *)
Definition primary_nonneg (m : metric) (g : graph) : bool :=
  all_edges
    (λ e, Num.is_finite (Edge.distance e) && Num.is_finite (Edge.cost e) &&
          Num.is_nonneg (Edge.get m e)) g.

Definition finite_weights (g : graph) : bool :=
  all_edges (λ e, Num.is_finite (Edge.distance e) && Num.is_finite (Edge.cost e)) g.

(** Every neighbour is itself a key of the graph. *)
Definition closed (g : graph) : bool :=
  forallb (λ entry, forallb (λ item, bool_decide (item.1 ∈ keys g)) entry.2) g.

(** The metric that a run does not minimise. *)
Definition secondary (m : metric) : metric :=
  match m with Distance => Cost | Cost => Distance end.

(** The tables a run can go through: the one the loop starts with, and
    any table got from one of them by relaxing an edge. *)
Inductive reached (m : metric) (g : graph) (s : vertex) : gmap vertex Node.t → Prop :=
  | reached_start nodes0 nodes :
      initialise g = (nodes0, keys g) → set_start nodes0 s = Ok nodes →
      reached m g s nodes
  | reached_relax nodes c n nodes' :
      reached m g s nodes → relax g c m nodes n = Ok nodes' → reached m g s nodes'.

(** Both accumulators of a node are finite, or neither is. *)
Definition both_or_neither (nodes : gmap vertex Node.t) : Prop :=
  ∀ v n, nodes !! v = Some n →
    (Num.finite (Node.distance n) ↔ Num.finite (Node.cost n)).

(** [relaxes m g nodes nodes']: the table [nodes'] comes from [nodes] by
    relaxations of the run's metric, any number of them. *)
Inductive relaxes (m : metric) (g : graph) (nodes : gmap vertex Node.t)
    : gmap vertex Node.t → Prop :=
  | relaxes_refl : relaxes m g nodes nodes
  | relaxes_step c n nodes' nodes'' :
      relaxes m g nodes nodes' → relax g c m nodes' n = Ok nodes'' →
      relaxes m g nodes nodes''.

(** Every edge has a return edge of the same weight in the metric [m]. *)
Definition symmetric (m : metric) (g : graph) : Prop :=
  ∀ x y e, edge g x y = Some e →
    ∃ e', edge g y x = Some e' ∧ Edge.get m e' = Edge.get m e.

#[global] Instance num_eq_dec : EqDecision num.
Proof. solve_decision. Defined.

(** The check of [symmetric], entry by entry. *)
Definition is_symmetric (m : metric) (g : graph) : bool :=
  forallb
    (λ entry,
       forallb
         (λ item,
            match edge g item.1 entry.1 with
            | Some e' => bool_decide (Edge.get m e' = Edge.get m item.2)
            | None => false
            end)
         entry.2)
    g.

(** A graph as [create_graph] returns it: every value of every row an
    edge dictionary. *)
Definition cells_of (g : graph) : list (string * list (string * cell)) :=
  map (λ entry, (entry.1, map (λ item, (item.1, Weights item.2)) entry.2)) g.

(** A string of characters of the class [[0-9]]. *)
Fixpoint digits (s : string) : bool :=
  match s with
  | EmptyString => true
  | String c rest => is_digit c && digits rest
  end.

(** A cell that [create_graph] can convert: its numbers fit in 64 bits,
    and either one of them is zero or there are at least two. *)
Definition cell_ok (values : string) : bool :=
  forallb (λ n, n <? 2 ^ 63) (readings values) &&
  (bool_decide (0 ∈ readings values) || (2 <=? length (readings values))%nat).

(** A row that [create_graph] can convert: its first column is ["POINT"]
    and its other cells are convertible. *)
Definition row_ok (row : list (string * string)) : bool :=
  match row with
  | (k, _) :: rest => bool_decide (k = "POINT") && forallb (λ item, cell_ok item.2) rest
  | [] => false
  end.

(** ** Example data *)

Definition fin_edge (d c : Z) : Edge.t := Edge.Make (Fin d) (Fin c).

(** The graph of the docstring of [create_graph]. *)
Definition example_graph : graph :=
  [ ("A", [("B", fin_edge 10 200); ("C", fin_edge 15 350)]);
    ("B", [("A", fin_edge 10 200)]);
    ("C", [("A", fin_edge 15 350)]) ].

(** A graph on which the shortest and the cheapest way from A to D differ. *)
Definition diverging_graph : graph :=
  [ ("A", [("B", fin_edge 1 10); ("C", fin_edge 5 1)]);
    ("B", [("A", fin_edge 1 10); ("D", fin_edge 1 10)]);
    ("C", [("A", fin_edge 5 1); ("D", fin_edge 5 1)]);
    ("D", [("B", fin_edge 1 10); ("C", fin_edge 5 1)]) ].

Definition cheapest_nodes : gmap vertex Node.t :=
  list_to_map
    [ ("A", Node.Make (Fin 0) (Fin 0) None);
      ("B", Node.Make (Fin 10) (Fin 1) (Some "A"));
      ("C", Node.Make (Fin 1) (Fin 5) (Some "A"));
      ("D", Node.Make (Fin 2) (Fin 10) (Some "C")) ].

Definition shortest_nodes : gmap vertex Node.t :=
  list_to_map
    [ ("A", Node.Make (Fin 0) (Fin 0) None);
      ("B", Node.Make (Fin 10) (Fin 1) (Some "A"));
      ("C", Node.Make (Fin 1) (Fin 5) (Some "A"));
      ("D", Node.Make (Fin 20) (Fin 2) (Some "B")) ].

Definition nodes_after_first_turn : gmap vertex Node.t :=
  list_to_map
    [ ("A", Node.Make (Fin 0) (Fin 0) None);
      ("B", Node.Make (Fin 10) (Fin 1) (Some "A"));
      ("C", Node.Make (Fin 1) (Fin 5) (Some "A"));
      ("D", Node.Make Inf Inf None) ].

(** A graph with a vertex that no edge touches. *)
Definition island_graph : graph :=
  [ ("A", [("B", fin_edge 10 200)]);
    ("B", [("A", fin_edge 10 200)]);
    ("C", []) ].

Definition island_nodes : gmap vertex Node.t :=
  list_to_map
    [ ("A", Node.Make (Fin 0) (Fin 0) None);
      ("B", Node.Make (Fin 200) (Fin 10) (Some "A"));
      ("C", Node.Make Inf Inf None) ].

(** A table for the graph of the docstring, with an unconnected pair. *)
Definition example_table : list (list (string * string)) :=
  [ [("POINT", "A"); ("A", "0"); ("B", "10km 20eur"); ("C", "15km 23eur")];
    [("POINT", "B"); ("A", "10km 20eur"); ("B", "0"); ("C", "0km 0eur")];
    [("POINT", "C"); ("A", "15km 23eur"); ("B", "0 0"); ("C", "0")] ].

(** * Properties *)

Example example_distance :
  calculate_shortest_paths Distance example_graph "A" =
  Ok (list_to_map
        [ ("A", Node.Make (Fin 0) (Fin 0) None);
          ("B", Node.Make (Fin 200) (Fin 10) (Some "A"));
          ("C", Node.Make (Fin 350) (Fin 15) (Some "A")) ]).
Proof. vm_compute. reflexivity. Qed.

(** ** Outcomes *)

Lemma ensures_bind {A B} (x : outcome A) (f : A → outcome B) P Q E :
  ensures x P E → (∀ a, P a → ensures (f a) Q E) → ensures (bind x f) Q E.
Proof. destruct x; simpl; auto. Qed.

Lemma ensures_mono {A} (x : outcome A) (P Q : A → Prop) (E E' : exception → Prop) :
  ensures x P E → (∀ a, P a → Q a) → (∀ e, E e → E' e) → ensures x Q E'.
Proof. destruct x; simpl; auto. Qed.

Lemma ensures_both {A} (x : outcome A) (P Q : A → Prop) (E E' : exception → Prop) :
  ensures x P E → (∀ a, x = Ok a → Q a) → (∀ e, x = Raise e → E' e) →
  ensures x (λ a, P a ∧ Q a) E'.
Proof. destruct x; simpl; auto. Qed.

Lemma ensures_ok {A} (x : outcome A) P E a : ensures x P E → x = Ok a → P a.
Proof. by intros H ->. Qed.

Lemma ensures_returns {A} (x : outcome A) P E :
  ensures x P E → (∀ e, ¬ E e) → ∃ a, x = Ok a ∧ P a.
Proof. destruct x; simpl; [eauto | intros H HE; by destruct (HE e) | done]. Qed.

Lemma bind_ok {A B} (x : outcome A) (f : A → outcome B) b :
  bind x f = Ok b → ∃ a, x = Ok a ∧ f a = Ok b.
Proof. destruct x; simpl; [eauto | done | done]. Qed.

(** ** Numbers *)

Lemma ltb_lt a b : Num.ltb a b = true → ∃ x, a = Fin x ∧ ¬ Num.le b a.
Proof.
  destruct a as [x|], b as [y|]; simpl; try done; intros H; exists x; split; auto.
  apply Z.ltb_lt in H. lia.
Qed.

Lemma ltb_ge a b : Num.ltb a b = false → Num.le b a.
Proof.
  destruct a as [x|], b as [y|]; simpl; try done. intros H. apply Z.ltb_ge in H. lia.
Qed.

Lemma le_refl a : Num.le a a.
Proof. destruct a; simpl; [lia | done]. Qed.

Lemma le_trans a b c : Num.le a b → Num.le b c → Num.le a c.
Proof. destruct a, b, c; simpl; try done. lia. Qed.

Lemma le_total a b : Num.le a b ∨ Num.le b a.
Proof. destruct a, b; simpl; auto. lia. Qed.

Lemma le_add_nonneg w a : Num.le (Fin 0) w → Num.le a (Num.add w a).
Proof. destruct w, a; simpl; try done. lia. Qed.

Lemma add_mono w a b : Num.le a b → Num.le (Num.add w a) (Num.add w b).
Proof. destruct w, a, b; simpl; try done. lia. Qed.

Lemma int_ok a z : Num.int a = Ok z → a = Fin z.
Proof. destruct a; simpl; congruence. Qed.

(** ** Dictionaries *)

Section DictFacts.
Context {V : Type}.
Implicit Types d : list (string * V).

Lemma dict_lookup_keys d k v : dict_lookup d k = Some v → k ∈ keys d.
Proof.
  induction d as [|[k' v'] d IH]; simpl; [done|].
  destruct (decide (k' = k)) as [->|]; [intros _; left | intros Hd; right; auto].
Qed.

Lemma dict_lookup_elem d k v : dict_lookup d k = Some v → (k, v) ∈ d.
Proof.
  induction d as [|[k' v'] d IH]; simpl; [done|].
  destruct (decide (k' = k)) as [->|]; [intros [= ->]; left | intros Hd; right; auto].
Qed.

Lemma keys_dict_lookup d k : k ∈ keys d → is_Some (dict_lookup d k).
Proof.
  induction d as [|[k' v'] d IH]; simpl.
  - by intros ?%elem_of_nil.
  - intros Hin. destruct (decide (k' = k)); [eauto|].
    apply elem_of_cons in Hin as [->|Hin]; [done | auto].
Qed.

Lemma dict_lookup_None d k : dict_lookup d k = None ↔ k ∉ keys d.
Proof.
  split.
  - intros H Hin. apply keys_dict_lookup in Hin as [v Hv]. congruence.
  - intros H. destruct (dict_lookup d k) eqn:E; [|done].
    by apply dict_lookup_keys in E.
Qed.

Lemma distinct_NoDup (l : list string) : distinct l = true ↔ NoDup l.
Proof.
  induction l as [|k l IH]; simpl.
  - split; [constructor | done].
  - rewrite andb_true_iff, bool_decide_eq_true, IH, NoDup_cons. done.
Qed.
End DictFacts.

(** ** Lists of unvisited nodes *)

Lemma list_remove_subseteq x l y : y ∈ list_remove x l → y ∈ l.
Proof.
  induction l as [|z l IH]; simpl; [done|].
  destruct (decide (z = x)); [by right|]. intros [->|Hy]%elem_of_cons; [left | right; auto].
Qed.

Lemma list_remove_length x l : x ∈ l → S (length (list_remove x l)) = length l.
Proof.
  induction l as [|z l IH]; simpl.
  - by intros ?%elem_of_nil.
  - destruct (decide (z = x)); [done|]. intros [->|Hx]%elem_of_cons; [done|].
    simpl. by rewrite IH.
Qed.

Lemma list_remove_NoDup x l : NoDup l → NoDup (list_remove x l).
Proof.
  induction 1 as [|z l Hz Hl IH]; simpl; [constructor|].
  destruct (decide (z = x)); [done|]. constructor; [|done].
  intros H'. by apply list_remove_subseteq in H'.
Qed.

Lemma elem_of_list_remove x l y : NoDup l → y ∈ list_remove x l ↔ y ∈ l ∧ y ≠ x.
Proof.
  induction 1 as [|z l Hz Hl IH]; simpl.
  - split; [by intros ?%elem_of_nil | by intros [?%elem_of_nil _]].
  - destruct (decide (z = x)); subst.
    + split; [intros Hy; split; [by right | by intros ->] |].
      intros [[->|Hy]%elem_of_cons Hne]; done.
    + rewrite !elem_of_cons, IH. split.
      * intros [->|[? ?]]; split; auto.
      * intros [[->|?] ?]; auto.
Qed.

(** ** The initial state *)

Lemma initialise_spec (g : graph) :
  ∃ nodes, initialise g = (nodes, keys g) ∧
    ∀ v, nodes !! v = if decide (v ∈ keys g) then Some (Node.Make Inf Inf None) else None.
Proof.
  unfold initialise.
  cut (∀ (l : list vertex) (nodes0 : gmap vertex Node.t) (u0 : list vertex),
    ∃ nodes, fold_left add_node l (nodes0, u0) = (nodes, u0 ++ l) ∧
      ∀ v, nodes !! v = if decide (v ∈ l) then Some (Node.Make Inf Inf None) else nodes0 !! v).
  { intros H. destruct (H (keys g) (∅ : gmap vertex Node.t) []) as (nodes & -> & Hn).
    exists nodes. split; [done|]. intros v. rewrite Hn. by rewrite lookup_empty. }
  induction l as [|k l IH]; intros nodes0 u0; simpl.
  - exists nodes0. rewrite app_nil_r. split; [done|]. intros v.
    destruct (decide (v ∈ [])) as [?%elem_of_nil|]; done.
  - destruct (IH (<[k := Node.Make Inf Inf None]> nodes0) (u0 ++ [k])) as (nodes & -> & Hn).
    exists nodes. rewrite <- app_assoc. split; [done|]. intros v. rewrite Hn.
    destruct (decide (v ∈ l)), (decide (v ∈ k :: l)) as [Hv|Hv]; try done.
    + destruct Hv. by right.
    + apply elem_of_cons in Hv as [->|]; [|done]. by rewrite lookup_insert_eq.
    + rewrite lookup_insert_ne; [done|]. intros ->. apply Hv. by left.
Qed.

(** The state in which the [while] loop is entered. *)
Lemma start_state (g : graph) (s : vertex) :
  s ∈ keys g →
  ∃ nodes0 nodes, initialise g = (nodes0, keys g) ∧ set_start nodes0 s = Ok nodes ∧
    ∀ v, nodes !! v =
      if decide (v = s) then Some (Node.Make (Fin 0) (Fin 0) None)
      else if decide (v ∈ keys g) then Some (Node.Make Inf Inf None) else None.
Proof.
  intros Hs. destruct (initialise_spec g) as (nodes0 & Hi & Hn).
  exists nodes0. unfold set_start, nodes_get. rewrite Hn.
  destruct (decide (s ∈ keys g)); [simpl|done].
  rewrite lookup_insert_eq. simpl. eexists. split; [done|]. split; [done|].
  intros v. destruct (decide (v = s)) as [->|].
  - by rewrite lookup_insert_eq.
  - rewrite !lookup_insert_ne by done. apply Hn.
Qed.

Lemma start_absent (g : graph) (s : vertex) :
  s ∉ keys g → ∃ nodes0, initialise g = (nodes0, keys g) ∧ set_start nodes0 s = Raise (KeyError s).
Proof.
  intros Hs. destruct (initialise_spec g) as (nodes0 & Hi & Hn).
  exists nodes0. split; [done|]. unfold set_start, nodes_get. rewrite Hn.
  by destruct (decide (s ∈ keys g)).
Qed.

(** ** The scan for the nearest unvisited node *)

Lemma find_nearest_spec (m : metric) (nodes : gmap vertex Node.t) l nearest n0 :
  nodes !! nearest = Some n0 →
  (∀ u, u ∈ l → is_Some (nodes !! u)) →
  ∃ c nc, find_nearest m nodes l nearest (Node.get m n0) = Ok c ∧
    (c = nearest ∨ c ∈ l) ∧ nodes !! c = Some nc ∧
    Num.le (Node.get m nc) (Node.get m n0) ∧
    ∀ u nu, u ∈ l → nodes !! u = Some nu → Num.le (Node.get m nc) (Node.get m nu).
Proof.
  revert nearest n0. induction l as [|u l IH]; intros nearest n0 Hn Hl; simpl.
  - exists nearest, n0. split_and!; auto using le_refl. by intros u nu ?%elem_of_nil.
  - destruct (Hl u) as [nu Hu]; [by left|]. unfold nodes_get. rewrite Hu. simpl.
    assert (∀ x, x ∈ l → is_Some (nodes !! x)) as Hl' by (intros; apply Hl; by right).
    destruct (Num.ltb (Node.get m nu) (Node.get m n0)) eqn:Hlt.
    + destruct (IH u nu Hu Hl') as (c & nc & -> & Hc & Hnc & Hle & Hmin).
      exists c, nc. split_and!; auto.
      * destruct Hc as [->|]; right; [by left | by right].
      * apply ltb_lt in Hlt as (x & Hx & Hnle).
        destruct (le_total (Node.get m nu) (Node.get m n0)) as [?|?]; [|done].
        eauto using le_trans.
      * intros x nx [->|Hx]%elem_of_cons Hnx; [|eauto]. by simplify_eq.
    + destruct (IH nearest n0 Hn Hl') as (c & nc & -> & Hc & Hnc & Hle & Hmin).
      exists c, nc. split_and!; auto.
      * destruct Hc as [->|]; [by left | right; by right].
      * intros x nx [->|Hx]%elem_of_cons Hnx; [|eauto]. simplify_eq.
        apply ltb_ge in Hlt. eauto using le_trans.
Qed.

(** ** One relaxation *)

Lemma edge_getitem (g : graph) c n e :
  edge g c n = Some e ↔ ∃ adj, dict_lookup g c = Some adj ∧ dict_lookup adj n = Some e.
Proof.
  unfold edge. destruct (dict_lookup g c) as [adj|].
  - split; [eauto | by intros (? & [= <-] & ?)].
  - split; [done | by intros (? & ? & ?)].
Qed.

(** The shape of [relax] on an edge of the graph, in terms of the metric
    that drives the run. *)
Lemma relax_unfold (g : graph) c m (nodes : gmap vertex Node.t) n e cur :
  edge g c n = Some e → nodes !! c = Some cur →
  relax g c m nodes n =
    let* nb := nodes_get nodes n in
    if Num.ltb (Num.add (Edge.get m e) (Node.get m cur)) (Node.get m nb)
    then
      let* d := Num.int (Num.add (Edge.distance e) (Node.distance cur)) in
      let* c' := Num.int (Num.add (Edge.cost e) (Node.cost cur)) in
      Ok (<[n := Node.Make (Fin c') (Fin d) (Some c)]> nodes)
    else Ok nodes.
Proof.
  intros (adj & Hg & He)%edge_getitem Hc. unfold relax, getitem, nodes_get.
  rewrite Hg. simpl. rewrite He. simpl. rewrite Hc. simpl.
  destruct (nodes !! n); simpl; [|done]. by destruct m.
Qed.

(** ** Invariants of the main loop, in general *)

Section Loop.
Variables (m : metric) (g : graph).
(** What an exception may be. *)
Variable E : exception → Prop.
(** The invariant of the [while] loop, on [nodes] and [unvisited_nodes]. *)
Variable I : gmap vertex Node.t → list vertex → Prop.
(** The invariant of the [for] loop over the neighbours of [c], on the
    neighbours already seen, [nodes] and [unvisited_nodes]. *)
Variable F : vertex → list vertex → gmap vertex Node.t → list vertex → Prop.

Hypothesis I_dom : ∀ nodes u, I nodes u → dom_ok g nodes u.
Hypothesis enter : ∀ nodes u c nc,
  I nodes u → c ∈ u → nodes !! c = Some nc →
  (∀ v nv, v ∈ u → nodes !! v = Some nv → Num.le (Node.get m nc) (Node.get m nv)) →
  F c [] nodes (list_remove c u).
Hypothesis step : ∀ c seen n e nodes u,
  F c seen nodes u → edge g c n = Some e →
  ensures (relax g c m nodes n) (λ nodes', F c (seen ++ [n]) nodes' u) E.
Hypothesis leave : ∀ c adj nodes u,
  dict_lookup g c = Some adj → F c (keys adj) nodes u → I nodes u.

Lemma relax_all_rule c u rest : ∀ seen nodes,
  F c seen nodes u → (∀ n, n ∈ rest → is_Some (edge g c n)) →
  ensures (relax_all g c m nodes rest) (λ nodes', F c (seen ++ rest) nodes' u) E.
Proof.
  induction rest as [|n rest IH]; intros seen nodes HF Hrest; simpl.
  - by rewrite app_nil_r.
  - destruct (Hrest n) as [e He]; [by left|].
    eapply ensures_bind; [by eapply step|]. intros nodes' HF'. simpl in HF'.
    replace (seen ++ n :: rest) with ((seen ++ [n]) ++ rest) by by rewrite <- app_assoc.
    apply IH; [done|]. intros; apply Hrest; by right.
Qed.

Lemma iteration_rule nodes first rest :
  I nodes (first :: rest) →
  ensures (iteration m g nodes (first :: rest) first)
    (λ st, I st.1 st.2 ∧ length st.2 = length rest) E.
Proof.
  intros HI. destruct (I_dom _ _ HI) as [Hdom Hu]. unfold iteration.
  destruct (proj2 (Hdom first)) as [n0 Hn0]; [apply Hu; by left|].
  unfold nodes_get at 1. rewrite Hn0. cbn [bind]. cbv zeta.
  destruct (find_nearest_spec m nodes (first :: rest) first n0 Hn0)
    as (c & nc & -> & Hc & Hnc & _ & Hmin).
  { intros v Hv. by apply Hdom, Hu. }
  simpl. assert (c ∈ first :: rest) as Hin by (destruct Hc as [->|]; [by left | done]).
  destruct (keys_dict_lookup g c) as [adj Hadj]; [by apply Hu|].
  unfold recalculate_neighbour_position, getitem. rewrite Hadj. simpl.
  eapply ensures_bind.
  - apply (relax_all_rule c (list_remove c (first :: rest)) (keys adj) []).
    + by eapply enter.
    + intros n [e He]%keys_dict_lookup. exists e. apply edge_getitem. eauto.
  - intros nodes' HF. simpl in *. split; [by eapply leave|].
    apply list_remove_length in Hin. simpl in Hin. lia.
Qed.

Lemma while_rule fuel : ∀ nodes u,
  I nodes u → (length u ≤ fuel)%nat →
  ensures (while_unvisited fuel m g nodes u) (λ nodes', I nodes' []) E.
Proof.
  induction fuel as [|fuel IH]; intros nodes [|first rest] HI Hlen; simpl in *; try done; [lia|].
  eapply ensures_bind; [by apply iteration_rule|].
  intros [nodes' u'] [HI' Hlen']. simpl in *. apply IH; [done | lia].
Qed.

Lemma turns_rule k : ∀ nodes u,
  I nodes u → ensures (turns k m g nodes u) (λ st, I st.1 st.2) E.
Proof.
  induction k as [|k IH]; intros nodes [|first rest] HI; simpl; try done.
  eapply ensures_bind; [by apply iteration_rule|].
  intros [nodes' u'] [HI' _]. by apply IH.
Qed.
End Loop.

Lemma relax_cases (g : graph) c m (nodes : gmap vertex Node.t) n e cur :
  edge g c n = Some e → nodes !! c = Some cur →
  (nodes !! n = None ∧ relax g c m nodes n = Raise (KeyError n)) ∨
  (∃ nb, nodes !! n = Some nb ∧
     Num.le (Node.get m nb) (Num.add (Edge.get m e) (Node.get m cur)) ∧
     relax g c m nodes n = Ok nodes) ∨
  (∃ nb x, nodes !! n = Some nb ∧
     Num.add (Edge.get m e) (Node.get m cur) = Fin x ∧ ¬ Num.le (Node.get m nb) (Fin x) ∧
     relax g c m nodes n =
       let* d := Num.int (Num.add (Edge.distance e) (Node.distance cur)) in
       let* c' := Num.int (Num.add (Edge.cost e) (Node.cost cur)) in
       Ok (<[n := Node.Make (Fin c') (Fin d) (Some c)]> nodes)).
Proof.
  intros He Hc. rewrite (relax_unfold g c m nodes n e cur He Hc). unfold nodes_get.
  destruct (nodes !! n) as [nb|]; simpl; [|by left]. right.
  destruct (Num.ltb _ _) eqn:Hlt.
  - right. apply ltb_lt in Hlt as (x & Hx & Hnle). exists nb, x. by rewrite <- Hx.
  - left. apply ltb_ge in Hlt. eauto.
Qed.

Lemma insert_is_Some (nodes : gmap vertex Node.t) n nb x v :
  nodes !! n = Some nb → is_Some (<[n := x]> nodes !! v) ↔ is_Some (nodes !! v).
Proof.
  intros Hn. destruct (decide (n = v)) as [->|].
  - rewrite lookup_insert_eq, Hn. split; eauto.
  - by rewrite lookup_insert_ne.
Qed.

(** ** What holds of every run *)

Section AnyGraph.
Variables (m : metric) (g : graph) (s : vertex).

(** A node other than the start that has no predecessor was never
    written to. *)
Definition unreached_ok (nodes : gmap vertex Node.t) : Prop :=
  ∀ v n, nodes !! v = Some n → v ≠ s → Node.best_neighbour n = None →
    Node.cost n = Inf ∧ Node.distance n = Inf.

Definition inv_any (nodes : gmap vertex Node.t) (u : list vertex) : Prop :=
  dom_ok g nodes u ∧ unreached_ok nodes.

Definition for_any (c : vertex) (seen : list vertex)
    (nodes : gmap vertex Node.t) (u : list vertex) : Prop :=
  inv_any nodes u ∧ is_Some (nodes !! c).

Lemma unreached_ok_insert (nodes : gmap vertex Node.t) n x :
  unreached_ok nodes → is_Some (Node.best_neighbour x) →
  unreached_ok (<[n := x]> nodes).
Proof.
  intros Hun [b Hb] v nv Hv Hne Hnone. destruct (decide (n = v)) as [->|].
  - rewrite lookup_insert_eq in Hv. simplify_eq; try congruence.
  - rewrite lookup_insert_ne in Hv by done. by eapply Hun.
Qed.

Lemma dom_ok_insert (nodes : gmap vertex Node.t) u n nb x :
  dom_ok g nodes u → nodes !! n = Some nb → dom_ok g (<[n := x]> nodes) u.
Proof.
  intros [Hdom Hu] Hn. split; [|done]. intros v.
  by rewrite (insert_is_Some nodes n nb x v Hn).
Qed.

Lemma inv_any_step c seen n e nodes u :
  for_any c seen nodes u → edge g c n = Some e →
  ensures (relax g c m nodes n) (λ nodes', for_any c (seen ++ [n]) nodes' u) (λ _, True).
Proof.
  intros [[Hdom Hun] [cur Hc]] He.
  destruct (relax_cases g c m nodes n e cur He Hc)
    as [[_ ->]|[(nb & _ & _ & ->)|(nb & x & Hn & _ & _ & ->)]]; simpl; [done| |].
  { split; [split|]; eauto. }
  destruct (Num.add (Edge.distance e) _) as [d|]; simpl; [|done].
  destruct (Num.add (Edge.cost e) _) as [c'|]; simpl; [|done].
  split; [split|].
  - by eapply dom_ok_insert.
  - apply unreached_ok_insert; simpl; eauto.
  - eapply insert_is_Some; eauto.
Qed.

Lemma inv_any_enter nodes u c nc :
  inv_any nodes u → c ∈ u → nodes !! c = Some nc →
  for_any c [] nodes (list_remove c u).
Proof.
  intros [[Hdom Hu] Hun] Hc Hnc. split; [split; [split|]|]; eauto.
  intros v Hv%list_remove_subseteq. auto.
Qed.

Lemma inv_any_start nodes0 nodes :
  initialise g = (nodes0, keys g) → set_start nodes0 s = Ok nodes →
  inv_any nodes (keys g).
Proof.
  intros Hi Hs. destruct (decide (s ∈ keys g)) as [Hin|Hin].
  - destruct (start_state g s Hin) as (nodes0' & nodes' & Hi' & Hs' & Hn).
    rewrite Hi in Hi'. injection Hi' as <-. rewrite Hs in Hs'. injection Hs' as <-.
    split; [split|]; [|done|].
    + intros v. rewrite Hn. destruct (decide (v = s)) as [->|]; [split; eauto|].
      destruct (decide (v ∈ keys g)); [split; eauto|].
      split; [by intros [? ?] | done].
    + intros v n Hv Hne _. rewrite Hn in Hv. destruct (decide (v = s)); [done|].
      destruct (decide (v ∈ keys g)); by simplify_eq.
  - destruct (start_absent g s Hin) as (nodes0' & Hi' & Hs').
    rewrite Hi in Hi'. injection Hi' as <-. congruence.
Qed.

(** The length of the list is fuel enough for the [while] loop, on any
    graph: the loop stops, with a table or with an exception. *)
Lemma while_unvisited_fuel fuel nodes u :
  inv_any nodes u → (length u ≤ fuel)%nat → while_unvisited fuel m g nodes u ≠ OutOfFuel.
Proof.
  intros HI Hlen Hout.
  pose proof (while_rule m g (λ _, True) inv_any for_any
    ltac:(by intros ?? [? ?])
    ltac:(intros; by eapply inv_any_enter)
    inv_any_step
    ltac:(by intros ???? _ [? _])
    fuel nodes u HI Hlen) as H.
  by rewrite Hout in H.
Qed.

Lemma calculate_shortest_paths_stops : calculate_shortest_paths m g s ≠ OutOfFuel.
Proof.
  unfold calculate_shortest_paths. destruct (initialise_spec g) as (nodes0 & Hi & _).
  rewrite Hi. destruct (set_start nodes0 s) as [nodes|e|] eqn:Hs; simpl; [|done|].
  - apply while_unvisited_fuel; [by eapply inv_any_start|done].
  - revert Hs. unfold set_start, nodes_get.
    destruct (nodes0 !! s); simpl; [|done]. by rewrite lookup_insert_eq.
Qed.

(** The invariant holds at every turn of a run, and of its result. *)
Lemma inv_any_turns k nodes u :
  run_state k m g s = Ok (nodes, u) → inv_any nodes u.
Proof.
  unfold run_state. destruct (initialise_spec g) as (nodes0 & Hi & _). rewrite Hi.
  intros (nodes1 & Hs & Ht)%bind_ok.
  pose proof (inv_any_start _ _ Hi Hs) as H0.
  eapply (ensures_ok _ _ _ _ (turns_rule m g (λ _, True) inv_any for_any
    ltac:(by intros ?? [? ?])
    ltac:(intros; by eapply inv_any_enter)
    inv_any_step
    ltac:(by intros ???? _ [? _])
    k nodes1 (keys g) H0) Ht).
Qed.

Lemma inv_any_result nodes :
  calculate_shortest_paths m g s = Ok nodes → inv_any nodes [].
Proof.
  unfold calculate_shortest_paths. destruct (initialise_spec g) as (nodes0 & Hi & _).
  rewrite Hi. intros (nodes1 & Hs & Ht)%bind_ok.
  pose proof (inv_any_start _ _ Hi Hs) as H0.
  eapply (ensures_ok _ _ _ _ (while_rule m g (λ _, True) inv_any for_any
    ltac:(by intros ?? [? ?])
    ltac:(intros; by eapply inv_any_enter)
    inv_any_step
    ltac:(by intros ???? _ [? _])
    (length (keys g)) nodes1 (keys g) H0 ltac:(done)) Ht).
Qed.
End AnyGraph.

Lemma chain_insert nodes n x v tail :
  chain nodes v tail → n ≠ v → n ∉ tail → chain (<[n := x]> nodes) v tail.
Proof.
  induction 1 as [v nv Hv Hnone|v nv p tail Hv Hp Hc IH]; intros Hne Hnotin.
  - eapply chain_end; [|done]. by rewrite lookup_insert_ne.
  - eapply chain_step; [by rewrite lookup_insert_ne|done|].
    apply IH; [|]; intros ?; apply Hnotin; subst; [by left | by right].
Qed.

Lemma chain_walk_back nodes v tail :
  chain nodes v tail →
  ∀ fuel path, (length tail < fuel)%nat → walk_back fuel nodes v path = Ok (path ++ tail).
Proof.
  induction 1 as [v nv Hv Hnone|v nv p tail Hv Hp Hc IH]; intros [|fuel] path Hlen;
    simpl in *; try lia; unfold nodes_get; rewrite Hv; simpl.
  - by rewrite Hnone, app_nil_r.
  - rewrite Hp, IH by lia. by rewrite <- app_assoc.
Qed.

Lemma add_comm a b : Num.add a b = Num.add b a.
Proof. destruct a, b; simpl; f_equal; lia. Qed.

Lemma add_assoc a b c : Num.add a (Num.add b c) = Num.add (Num.add a b) c.
Proof. destruct a, b, c; simpl; f_equal; lia. Qed.

Lemma add_0_r a : Num.add a (Fin 0) = a.
Proof. destruct a; simpl; f_equal; lia. Qed.

Lemma is_path_snoc g q x y :
  is_path g (q ++ [x]) = true → is_Some (edge g x y) → is_path g ((q ++ [x]) ++ [y]) = true.
Proof.
  intros Hq He. induction q as [|a [|b q] IH]; simpl in *.
  - by rewrite bool_decide_eq_true_2.
  - apply andb_true_iff in Hq as [-> _]. simpl. by rewrite bool_decide_eq_true_2.
  - apply andb_true_iff in Hq as [-> Hq]. simpl. by apply IH.
Qed.

Lemma path_sum_snoc w g q x y e :
  edge g x y = Some e →
  path_sum w g ((q ++ [x]) ++ [y]) = Num.add (w e) (path_sum w g (q ++ [x])).
Proof.
  intros He. induction q as [|a [|b q] IH]; simpl in *.
  - by rewrite He.
  - destruct (edge g a x); [|by destruct (w e)]. rewrite He. simpl.
    by rewrite !add_0_r, add_comm.
  - destruct (edge g a b) as [e'|]; [|by destruct (w e)]. rewrite IH.
    by rewrite !add_assoc, (add_comm (w e')).
Qed.

Lemma add_fin_inv a b x : Num.add a b = Fin x → ∃ y z, a = Fin y ∧ b = Fin z ∧ x = y + z.
Proof. destruct a as [y|], b as [z|]; simpl; intros [= <-]. eauto. Qed.

Lemma le_add_step a w x t :
  Num.le a (Num.add w x) → Num.le (Num.add t a) (Num.add (Num.add w t) x).
Proof. destruct a, w, x, t; simpl; try done. lia. Qed.

Lemma not_le_lt a x : ¬ Num.le a (Fin x) → Num.le (Fin x) a.
Proof. destruct a; simpl; [lia | done]. Qed.

(** ** The invariants of Dijkstra's algorithm *)

Section Dijkstra.
Variables (m : metric) (g : graph) (s : vertex).

(** The weights of the graph are integers, and those of the metric that
    drives the run are not negative. *)
Hypothesis g_weights : ∀ x y e, edge g x y = Some e →
  Num.finite (Edge.distance e) ∧ Num.finite (Edge.cost e) ∧ Num.le (Fin 0) (Edge.get m e).

(** A loop state of the run, against which later states are compared. *)
Variables (nodes_r : gmap vertex Node.t) (u_r : list vertex).

(** The entry of [v] was written when its predecessor [p] was the current
    node: [p] is finalized and both accumulators of [v] continue those of
    [p] along the edge from [p] to [v]. *)
Definition linked (nodes : gmap vertex Node.t) (u : list vertex)
    (v : vertex) (n : Node.t) (p : vertex) : Prop :=
  (p ∉ u) ∧ ∃ e np, edge g p v = Some e ∧ nodes !! p = Some np ∧
    Node.distance n = Num.add (Edge.distance e) (Node.distance np) ∧
    Node.cost n = Num.add (Edge.cost e) (Node.cost np) ∧
    Num.finite (Node.distance n) ∧ Num.finite (Node.cost n).

Record inv_core (nodes : gmap vertex Node.t) (u : list vertex) : Prop := {
  core_dom : dom_ok g nodes u;
  core_nodup : NoDup u;
  core_start : nodes !! s = Some (Node.Make (Fin 0) (Fin 0) None);
  core_nonneg : ∀ v n, nodes !! v = Some n → Num.le (Fin 0) (Node.get m n);
  core_none : unreached_ok s nodes;
  core_pred : ∀ v n p,
    nodes !! v = Some n → Node.best_neighbour n = Some p → linked nodes u v n p;
  (** finalized nodes are no farther than unvisited ones *)
  core_sorted : ∀ x y nx ny,
    x ∉ u → y ∈ u → nodes !! x = Some nx → nodes !! y = Some ny →
    Num.le (Node.get m nx) (Node.get m ny);
  (** every predecessor chain ends, and runs through finalized nodes *)
  core_chain : ∀ v, v ∈ keys g → ∃ tail, chain nodes v tail ∧ ∀ x, x ∈ tail → x ∉ u;
  (** finalized nodes are as they were in the reference state *)
  core_frame : (∀ v, v ∉ u_r → nodes !! v = nodes_r !! v) ∧ (∀ v, v ∈ u → v ∈ u_r)
}.

(** The edges selected by [P] cannot improve their target any more. *)
Definition relaxed (nodes : gmap vertex Node.t) (P : vertex → vertex → Prop) : Prop :=
  ∀ x y e nx, P x y → nodes !! x = Some nx → edge g x y = Some e →
    ∃ ny, nodes !! y = Some ny ∧
      Num.le (Node.get m ny) (Num.add (Edge.get m e) (Node.get m nx)).

Definition inv_dijkstra (nodes : gmap vertex Node.t) (u : list vertex) : Prop :=
  inv_core nodes u ∧ relaxed nodes (λ x _, x ∉ u).

Definition for_dijkstra (c : vertex) (seen : list vertex)
    (nodes : gmap vertex Node.t) (u : list vertex) : Prop :=
  inv_core nodes u ∧ (c ∉ u) ∧
  (∃ nc, nodes !! c = Some nc ∧
     ∀ x nx, x ∉ u → nodes !! x = Some nx → Num.le (Node.get m nx) (Node.get m nc)) ∧
  relaxed nodes (λ x y, (x ∉ u) ∧ (x = c → y ∈ seen)).

(** The only exception of a run: a neighbour that is not a key of the graph. *)
Definition dangling (e : exception) : Prop :=
  ∃ x y, e = KeyError y ∧ is_Some (edge g x y) ∧ y ∉ keys g.

Lemma core_finite nodes u v n :
  inv_core nodes u → nodes !! v = Some n → Num.finite (Node.get m n) →
  Num.finite (Node.distance n) ∧ Num.finite (Node.cost n).
Proof.
  intros Hcore Hv Hfin. destruct (decide (v = s)) as [->|Hne].
  - rewrite (core_start _ _ Hcore) in Hv. injection Hv as <-. simpl. split; by eexists.
  - destruct (Node.best_neighbour n) as [p|] eqn:Hp.
    + destruct (core_pred _ _ Hcore v n p Hv Hp) as (_ & e & np & _ & _ & _ & _ & ? & ?).
      done.
    + destruct (core_none _ _ Hcore v n Hv Hne Hp) as [Hc Hd].
      destruct Hfin as [z Hz]. destruct m; simpl in Hz; congruence.
Qed.

Lemma for_dijkstra_enter nodes u c nc :
  inv_dijkstra nodes u → c ∈ u → nodes !! c = Some nc →
  (∀ v nv, v ∈ u → nodes !! v = Some nv → Num.le (Node.get m nc) (Node.get m nv)) →
  for_dijkstra c [] nodes (list_remove c u).
Proof.
  intros [Hcore Hrel] Hc Hnc Hmin.
  pose proof (core_nodup _ _ Hcore) as Hnd.
  assert (∀ x, x ∉ list_remove c u → x ∉ u ∨ x = c) as Hout.
  { intros x Hx. destruct (decide (x = c)); [by right|]. left. intros Hxu.
    apply Hx. by apply elem_of_list_remove. }
  split; [|split; [|split]].
  - destruct Hcore as [[Hdom Hu] ? Hst Hnn Hnone Hpred Hsort Hchain [Hfr Hsub]].
    split; auto.
    + split; [done|]. intros v Hv%list_remove_subseteq. auto.
    + by apply list_remove_NoDup.
    + intros v n p Hv Hp. destruct (Hpred v n p Hv Hp) as (Hpu & Hlink).
      split; [|done]. intros ?%list_remove_subseteq. done.
    + intros x y nx ny Hx Hy Hnx Hny. apply elem_of_list_remove in Hy as [Hy Hyc]; [|done].
      destruct (Hout x Hx) as [Hxu| ->]; [eauto|]. simplify_eq. eauto.
    + intros v Hv. destruct (Hchain v Hv) as (tail & Hch & Htail). exists tail.
      split; [done|]. intros x Hx ?%list_remove_subseteq. by eapply Htail.
    + split; [done|]. intros v Hv%list_remove_subseteq. auto.
  - intros Hin. apply elem_of_list_remove in Hin as [_ ?]; done.
  - exists nc. split; [done|]. intros x nx Hx Hnx.
    destruct (Hout x Hx) as [Hxu| ->]; [|simplify_eq; apply le_refl].
    eapply (core_sorted _ _ Hcore); eauto.
  - intros x y e nx [Hx Hseen] Hnx He. destruct (Hout x Hx) as [Hxu| ->].
    + eapply Hrel; eauto.
    + pose proof (Hseen eq_refl) as Hy. by apply elem_of_nil in Hy.
Qed.

Lemma for_dijkstra_leave c adj nodes u :
  dict_lookup g c = Some adj → for_dijkstra c (keys adj) nodes u → inv_dijkstra nodes u.
Proof.
  intros Hadj (Hcore & Hc & _ & Hrel). split; [done|].
  intros x y e nx Hx Hnx He. eapply Hrel; eauto. split; [done|]. intros ->.
  apply edge_getitem in He as (adj' & Hadj' & He). simplify_eq.
  by eapply dict_lookup_keys.
Qed.

Lemma for_dijkstra_step c seen n e nodes u :
  for_dijkstra c seen nodes u → edge g c n = Some e →
  ensures (relax g c m nodes n) (λ nodes', for_dijkstra c (seen ++ [n]) nodes' u) dangling.
Proof.
  intros (Hcore & Hc & (nc & Hnc & Hmax) & Hrel) He.
  destruct (g_weights c n e He) as ([wd Hwd] & [wc Hwc] & Hw0).
  destruct (relax_cases g c m nodes n e nc He Hnc)
    as [[Hn ->]|[(nb & Hn & Hle & ->)|(nb & x & Hn & Hx & Hlt & ->)]]; simpl.
  - (* the neighbour is not in [nodes] *)
    exists c, n. split; [done|]. split; [eauto|]. intros Hin.
    apply (core_dom _ _ Hcore) in Hin as [? ?]. congruence.
  - (* no improvement *)
    split; [done|]. split; [done|]. split; [eauto|].
    intros x y e' nx [Hxu Hseen] Hnx He'. destruct (decide (x = c ∧ y = n)) as [[-> ->]|Hnot].
    + simplify_eq. eauto.
    + eapply Hrel; eauto. split; [done|]. intros ->.
      pose proof (Hseen eq_refl) as Hy.
      apply elem_of_app in Hy as [?|Hy%list_elem_of_singleton]; [done|].
      by destruct Hnot.
  - (* improvement: [n] is still unvisited *)
    assert (Num.le (Fin 0) (Node.get m nc)) as Hnc0 by (by eapply core_nonneg).
    assert (n ∈ u) as Hnu.
    { destruct (decide (n ∈ u)) as [|Hnotin]; [done|]. destruct Hlt.
      rewrite <- Hx. eapply le_trans; [by eapply Hmax|]. by apply le_add_nonneg. }
    assert (n ≠ c) as Hnc' by (by intros ->).
    apply add_fin_inv in Hx as (w & dc & Hw & Hdc & ->).
    destruct (core_finite nodes u c nc Hcore Hnc) as [[d0 Hd0] [c0 Hc0]]; [by eexists|].
    rewrite Hwd, Hwc, Hd0, Hc0. simpl.
    set (new := Node.Make (Fin (wc + c0)) (Fin (wd + d0)) (Some c)).
    assert (Node.get m new = Fin (w + dc)) as Hnew.
    { unfold new. destruct m; simpl in *; congruence. }
    assert (0 <= w + dc) as Hpos.
    { rewrite Hw in Hw0. rewrite Hdc in Hnc0. simpl in *. lia. }
    assert (n ≠ s) as Hns.
    { intros ->. rewrite (core_start _ _ Hcore) in Hn. injection Hn as <-.
      apply Hlt. destruct m; simpl; lia. }
    assert (∀ v, v ∉ u → <[n := new]> nodes !! v = nodes !! v) as Hsame.
    { intros v Hv. rewrite lookup_insert_ne; [done|]. by intros ->. }
    split; [|split; [done|split]].
    + destruct Hcore as [Hdom Hnd Hst Hnn Hnone Hpred Hsort Hchain [Hfr Hsub]].
      split; auto.
      * by eapply dom_ok_insert.
      * by rewrite lookup_insert_ne.
      * intros v nv Hv. destruct (decide (n = v)) as [->|].
        -- rewrite lookup_insert_eq in Hv. injection Hv as <-. rewrite Hnew. simpl. lia.
        -- rewrite lookup_insert_ne in Hv by done. eauto.
      * apply unreached_ok_insert; simpl; eauto.
      * intros v nv p Hv Hp. destruct (decide (n = v)) as [->|].
        -- rewrite lookup_insert_eq in Hv. injection Hv as <-. simpl in Hp.
           injection Hp as <-. split; [done|]. exists e, nc. rewrite Hsame by done.
           simpl. rewrite Hwd, Hwc, Hd0, Hc0. simpl. split_and!; try done; by eexists.
        -- rewrite lookup_insert_ne in Hv by done.
           destruct (Hpred v nv p Hv Hp) as (Hpu & e' & np & ? & ? & ?).
           split; [done|]. exists e', np. rewrite Hsame by done. done.
      * intros a b na nb' Ha Hb Hna Hnb. rewrite Hsame in Hna by done.
        destruct (decide (n = b)) as [->|].
        -- rewrite lookup_insert_eq in Hnb. injection Hnb as <-. rewrite Hnew.
           eapply le_trans; [by eapply Hmax|]. rewrite Hdc. simpl. 
           rewrite Hw in Hw0. simpl in Hw0. lia.
        -- rewrite lookup_insert_ne in Hnb by done. eauto.
      * intros v Hv. destruct (decide (n = v)) as [->|Hnv].
        -- assert (c ∈ keys g) as Hck by (apply (proj1 Hdom); eauto).
           destruct (Hchain c Hck) as (tail & Hch & Htail).
           exists (c :: tail). split.
           ++ eapply chain_step; [apply lookup_insert_eq|done|].
              apply chain_insert; [done|done|]. intros Hin. by apply Htail in Hin.
           ++ intros a [->|Ha]%elem_of_cons; auto.
        -- destruct (Hchain v Hv) as (tail & Hch & Htail). exists tail. split; [|done].
           apply chain_insert; [done|done|]. intros Hin. by apply Htail in Hin.
      * split; [|done]. intros v Hv. rewrite <- Hfr by done. apply Hsame. auto.
    + exists nc. rewrite Hsame by done. split; [done|]. intros a na Ha Hna.
      rewrite Hsame in Hna by done. eauto.
    + intros a b e' na [Ha Hseen] Hna He'. rewrite Hsame in Hna by done.
      destruct (decide (n = b)) as [<-|Hnb].
      * exists new. rewrite lookup_insert_eq. split; [done|]. rewrite Hnew.
        destruct (decide (a = c)) as [->|Hac].
        -- simplify_eq. rewrite Hw, Hdc. simpl. lia.
        -- destruct (Hrel a n e' na) as (nb' & Hnb' & Hle); [by split|done|done|].
           simplify_eq. eapply le_trans; [|done]. by apply not_le_lt.
      * rewrite lookup_insert_ne by done. eapply Hrel; eauto. split; [done|]. intros ->.
        pose proof (Hseen eq_refl) as Hy.
        apply elem_of_app in Hy as [?|Hy%list_elem_of_singleton]; [done|].
        by destruct Hnb.
Qed.

Lemma inv_dijkstra_dom nodes u : inv_dijkstra nodes u → dom_ok g nodes u.
Proof. intros [Hcore _]. apply Hcore. Qed.

Lemma dijkstra_turns k nodes u :
  inv_dijkstra nodes u →
  ensures (turns k m g nodes u) (λ st, inv_dijkstra st.1 st.2) dangling.
Proof.
  apply (turns_rule m g dangling inv_dijkstra for_dijkstra inv_dijkstra_dom
           for_dijkstra_enter for_dijkstra_step for_dijkstra_leave).
Qed.

Lemma dijkstra_while nodes u :
  inv_dijkstra nodes u →
  ensures (while_unvisited (length u) m g nodes u) (λ nodes', inv_dijkstra nodes' []) dangling.
Proof.
  intros HI.
  by apply (while_rule m g dangling inv_dijkstra for_dijkstra inv_dijkstra_dom
              for_dijkstra_enter for_dijkstra_step for_dijkstra_leave).
Qed.

(** *** Consequences for the accumulators *)

(** No path from [x] to [y] beats the accumulator of [y], once every node
    is finalized. *)
Lemma relaxed_path nodes p : ∀ x y nx,
  relaxed nodes (λ x _, x ∉ []) → path_from_to g x y p → nodes !! x = Some nx →
  ∃ ny, nodes !! y = Some ny ∧
    Num.le (Node.get m ny) (Num.add (path_sum (Edge.get m) g p) (Node.get m nx)).
Proof.
  induction p as [|a [|b r] IH]; intros x y nx Hrel (Hhd & Hlast & Hpath) Hx.
  - done.
  - simpl in *. simplify_eq. exists nx. split; [done|].
    destruct (Node.get m nx); simpl; [lia|done].
  - simpl in Hhd. injection Hhd as ->. cbn [is_path] in Hpath.
    apply andb_true_iff in Hpath as [[e He]%bool_decide_eq_true Hpath].
    destruct (Hrel x b e nx) as (nb & Hb & Hle); [apply not_elem_of_nil|done|done|].
    destruct (IH b y nb Hrel) as (ny & Hy & Hle'); [done|done|].
    exists ny. split; [done|]. cbn [path_sum]. rewrite He.
    eapply le_trans; [done|]. by apply le_add_step.
Qed.

(** Read backwards, the predecessor chain of a reached node is a path from
    the start, along which both accumulators were summed. *)
Lemma chain_sums nodes u v tail :
  inv_core nodes u → chain nodes v tail →
  ∀ nv, nodes !! v = Some nv → Num.finite (Node.get m nv) →
  path_from_to g s v (rev (v :: tail)) ∧
  path_sum Edge.distance g (rev (v :: tail)) = Node.distance nv ∧
  path_sum Edge.cost g (rev (v :: tail)) = Node.cost nv.
Proof.
  intros Hcore. induction 1 as [v n Hv Hnone|v n p tail Hv Hp Hch IH]; intros nv Hv' Hfin;
    rewrite Hv in Hv'; injection Hv' as <-.
  - destruct (decide (v = s)) as [->|Hne].
    + rewrite (core_start _ _ Hcore) in Hv. by injection Hv as <-.
    + destruct (core_none _ _ Hcore v n Hv Hne Hnone) as [Hc Hd].
      destruct Hfin as [z Hz]. destruct m; simpl in Hz; congruence.
  - destruct (core_pred _ _ Hcore v n p Hv Hp)
      as (_ & e & np & He & Hnp & Hd & Hc & [d Hd'] & [c Hc']).
    rewrite Hd' in Hd. rewrite Hc' in Hc. symmetry in Hd, Hc.
    apply add_fin_inv in Hd as (wd & dp & Hwd & Hdp & ->).
    apply add_fin_inv in Hc as (wc & cp & Hwc & Hcp & ->).
    destruct (IH np Hnp) as ((Hhd & Hlast & Hpath) & Hsd & Hsc).
    { destruct m; simpl; by eexists. }
    change (rev (v :: p :: tail)) with ((rev tail ++ [p]) ++ [v]).
    change (rev (p :: tail)) with (rev tail ++ [p]) in *.
    split; [split; [|split]|split].
    + destruct (rev tail); done.
    + apply last_snoc.
    + apply is_path_snoc; eauto.
    + rewrite (path_sum_snoc _ _ _ _ _ e He), Hsd, Hd', Hwd, Hdp. done.
    + rewrite (path_sum_snoc _ _ _ _ _ e He), Hsc, Hc', Hwc, Hcp. done.
Qed.

(** Along a predecessor chain the accumulator of the metric decreases
    strictly when the weights of that metric are positive: no vertex
    comes twice. *)
Lemma chain_lt nodes u v tail :
  (∀ x y e, edge g x y = Some e → ¬ Num.le (Edge.get m e) (Fin 0)) →
  inv_core nodes u → chain nodes v tail →
  ∀ nv x nx, nodes !! v = Some nv → x ∈ tail → nodes !! x = Some nx →
    ¬ Num.le (Node.get m nv) (Node.get m nx).
Proof.
  intros Hpos Hcore. induction 1 as [v n Hv Hnone|v n p tail Hv Hp Hch IH];
    intros nv x nx Hv' Hx Hnx; rewrite Hv in Hv'; injection Hv' as <-.
  - by apply elem_of_nil in Hx.
  - destruct (core_pred _ _ Hcore v n p Hv Hp)
      as (_ & e & np & He & Hnp & Hd & Hc & [d Hd'] & [c Hc']).
    assert (¬ Num.le (Node.get m n) (Node.get m np)) as Hstep.
    { specialize (Hpos p v e He). rewrite Hd' in Hd. rewrite Hc' in Hc. symmetry in Hd, Hc.
      apply add_fin_inv in Hd as (wd & dp & Hwd & Hdp & ->).
      apply add_fin_inv in Hc as (wc & cp & Hwc & Hcp & ->).
      destruct m; simpl in *; rewrite ?Hd', ?Hc', ?Hdp, ?Hcp, ?Hwd, ?Hwc in *;
        simpl in *; lia. }
    apply elem_of_cons in Hx as [->|Hx]; [by rewrite Hnp in Hnx; injection Hnx as <-|].
    specialize (IH np x nx Hnp Hx Hnx). intros Hle. apply IH.
    destruct (le_total (Node.get m np) (Node.get m n)) as [?|?]; [|done].
    eauto using le_trans.
Qed.

Lemma chain_NoDup nodes u v tail :
  (∀ x y e, edge g x y = Some e → ¬ Num.le (Edge.get m e) (Fin 0)) →
  inv_core nodes u → chain nodes v tail → NoDup (v :: tail).
Proof.
  intros Hpos Hcore Hch. induction Hch as [v n Hv Hnone|v n p tail Hv Hp Hch IH].
  - apply NoDup_singleton.
  - apply NoDup_cons. split; [|done]. intros Hin.
    eapply (chain_lt nodes u v (p :: tail) Hpos Hcore); eauto using le_refl.
    by eapply chain_step.
Qed.
End Dijkstra.

Lemma forallb_elem {A} (f : A → bool) (l : list A) x :
  forallb f l = true → x ∈ l → f x = true.
Proof.
  induction l as [|a l IH]; simpl; [by intros _ ?%elem_of_nil|].
  intros [Ha Hl]%andb_true_iff [->|Hx]%elem_of_cons; auto.
Qed.

Lemma all_edges_edge p g x y e :
  all_edges p g = true → edge g x y = Some e → p e = true.
Proof.
  intros Hall (adj & Hadj%dict_lookup_elem & He%dict_lookup_elem)%edge_getitem.
  apply (forallb_elem _ _ _ Hall) in Hadj. simpl in Hadj.
  by apply (forallb_elem _ _ _ Hadj) in He.
Qed.

Lemma closed_edge g x y : closed g = true → is_Some (edge g x y) → y ∈ keys g.
Proof.
  intros Hall [e (adj & Hadj%dict_lookup_elem & He%dict_lookup_elem)%edge_getitem].
  apply (forallb_elem _ _ _ Hall) in Hadj. simpl in Hadj.
  apply (forallb_elem _ _ _ Hadj) in He. simpl in He. by apply bool_decide_eq_true in He.
Qed.

Lemma is_positive_spec a : Num.is_positive a = true → ∃ z, a = Fin z ∧ 0 < z.
Proof. destruct a as [z|]; simpl; [|done]. intros ?%Z.ltb_lt. eauto. Qed.

Lemma is_nonneg_spec a : Num.is_nonneg a = true → ∃ z, a = Fin z ∧ 0 <= z.
Proof. destruct a as [z|]; simpl; [|done]. intros ?%Z.leb_le. eauto. Qed.

Lemma is_finite_spec a : Num.is_finite a = true → Num.finite a.
Proof. destruct a as [z|]; simpl; [|done]. by eexists. Qed.

Lemma all_edges_impl (p q : Edge.t → bool) g :
  (∀ e, p e = true → q e = true) → all_edges p g = true → all_edges q g = true.
Proof.
  intros Hpq H. unfold all_edges in *. apply forallb_forall. intros entry Hentry.
  apply forallb_forall. intros item Hitem.
  rewrite forallb_forall in H. specialize (H entry Hentry).
  rewrite forallb_forall in H. by apply Hpq, H.
Qed.

Lemma positive_finite g : positive_weights g = true → finite_weights g = true.
Proof.
  apply all_edges_impl. intros e.
  intros [(? & -> & _)%is_positive_spec (? & -> & _)%is_positive_spec]%andb_true_iff. done.
Qed.

Lemma positive_nonneg g : positive_weights g = true → nonneg_weights g = true.
Proof.
  unfold positive_weights, nonneg_weights, all_edges. intros H.
  apply forallb_forall. intros entry Hentry.
  apply forallb_forall. intros item Hitem.
  rewrite forallb_forall in H. specialize (H entry Hentry).
  rewrite forallb_forall in H. specialize (H item Hitem). simpl in H.
  apply andb_true_iff in H as [(z & -> & ?)%is_positive_spec (z' & -> & ?)%is_positive_spec].
  simpl. apply andb_true_iff. split; apply Z.leb_le; lia.
Qed.

Lemma nonneg_primary m g : nonneg_weights g = true → primary_nonneg m g = true.
Proof.
  apply all_edges_impl. intros e.
  intros [(d & Hd & ?)%is_nonneg_spec (c & Hc & ?)%is_nonneg_spec]%andb_true_iff.
  rewrite Hd, Hc. destruct m; simpl; rewrite ?Hd, ?Hc; simpl;
    apply Z.leb_le; lia.
Qed.

Lemma primary_nonneg_spec m g x y e :
  primary_nonneg m g = true → edge g x y = Some e →
  Num.finite (Edge.distance e) ∧ Num.finite (Edge.cost e) ∧ Num.le (Fin 0) (Edge.get m e).
Proof.
  intros Hall He. apply (all_edges_edge _ _ _ _ _ Hall) in He.
  apply andb_true_iff in He as [[Hd%is_finite_spec Hc%is_finite_spec]%andb_true_iff
                                  (z & Hz & ?)%is_nonneg_spec].
  split; [done|]. split; [done|]. by rewrite Hz.
Qed.

Lemma positive_weights_spec m g x y e :
  positive_weights g = true → edge g x y = Some e → ¬ Num.le (Edge.get m e) (Fin 0).
Proof.
  intros Hall He. apply (all_edges_edge _ _ _ _ _ Hall) in He.
  apply andb_true_iff in He as [(d & Hd & ?)%is_positive_spec (c & Hc & ?)%is_positive_spec].
  destruct m; simpl; rewrite ?Hd, ?Hc; simpl; lia.
Qed.

(** ** The run of [calculate_shortest_paths] on a well-formed graph *)

Lemma inv_dijkstra_start m g s nodes :
  NoDup (keys g) →
  (∀ v, nodes !! v =
    if decide (v = s) then Some (Node.Make (Fin 0) (Fin 0) None)
    else if decide (v ∈ keys g) then Some (Node.Make Inf Inf None) else None) →
  s ∈ keys g →
  inv_dijkstra m g s nodes (keys g) nodes (keys g).
Proof.
  intros Hnd Hn Hs.
  assert (∀ v n, nodes !! v = Some n → v ∈ keys g) as Hin.
  { intros v n. rewrite Hn. destruct (decide (v = s)) as [->|]; [done|].
    by destruct (decide (v ∈ keys g)). }
  assert (∀ v n, nodes !! v = Some n → Node.best_neighbour n = None ∧
            (v ≠ s → n = Node.Make Inf Inf None)) as Hnone.
  { intros v n. rewrite Hn. destruct (decide (v = s)) as [->|]; [by intros [= <-]|].
    destruct (decide (v ∈ keys g)); by intros [= <-]. }
  split; [split|].
  - split; [|done]. intros v. split; [intros [n ?]; eauto|]. intros Hv. rewrite Hn.
    destruct (decide (v = s)); [eauto|]. destruct (decide (v ∈ keys g)); [eauto|done].
  - done.
  - rewrite Hn. by destruct (decide (s = s)).
  - intros v n Hv. destruct (decide (v = s)) as [->|Hne].
    + rewrite Hn in Hv. destruct (decide (s = s)); [|done]. injection Hv as <-.
      destruct m; simpl; lia.
    + destruct (Hnone v n Hv) as [_ Heq]. rewrite (Heq Hne). by destruct m.
  - intros v n Hv Hne _. destruct (Hnone v n Hv) as [_ Heq]. by rewrite (Heq Hne).
  - intros v n p Hv Hp. destruct (Hnone v n Hv) as [? _]. congruence.
  - intros x y nx ny Hx _ Hnx. destruct Hx. eauto.
  - intros v Hv. exists []. split; [|by intros x ?%elem_of_nil].
    assert (is_Some (nodes !! v)) as [n Hnv].
    { rewrite Hn. destruct (decide (v = s)); [eauto|].
      destruct (decide (v ∈ keys g)); [eauto|done]. }
    eapply chain_end; [done|]. by destruct (Hnone v n Hnv).
  - done.
  - intros x y e nx Hx Hnx. destruct Hx. eauto.
Qed.

(** Only the frame of the invariant mentions the reference state. *)
Lemma inv_dijkstra_reframe m g s nodes_r u_r nodes u :
  inv_dijkstra m g s nodes_r u_r nodes u → inv_dijkstra m g s nodes u nodes u.
Proof. intros [[] ?]. split; [split|]; done. Qed.

Lemma turns_add k j m g : ∀ nodes u,
  turns (k + j) m g nodes u = let* st := turns k m g nodes u in turns j m g st.1 st.2.
Proof.
  induction k as [|k IH]; intros nodes u; simpl; [done|].
  destruct u as [|first rest]; simpl; [by destruct j|].
  destruct (iteration m g nodes (first :: rest) first) as [[nodes' u']| |]; simpl; [|done|done].
  apply IH.
Qed.

Lemma while_turns fuel m g : ∀ nodes u nodes',
  while_unvisited fuel m g nodes u = Ok nodes' → turns fuel m g nodes u = Ok (nodes', []).
Proof.
  induction fuel as [|fuel IH]; intros nodes [|first rest] nodes'; simpl; try done.
  - by intros [= ->].
  - by intros [= ->].
  - destruct (iteration m g nodes (first :: rest) first) as [[nodes1 u1]| |]; simpl; [|done|done].
    apply IH.
Qed.

Lemma dijkstra_run m g s :
  NoDup (keys g) → primary_nonneg m g = true → s ∈ keys g →
  ensures (calculate_shortest_paths m g s)
    (λ nodes, ∃ nodes_r u_r, inv_dijkstra m g s nodes_r u_r nodes []) (dangling g).
Proof.
  intros Hnd Hw Hs. destruct (start_state g s Hs) as (nodes0 & nodes1 & Hi & Hst & Hn).
  unfold calculate_shortest_paths. rewrite Hi, Hst. simpl.
  eapply ensures_mono; [apply (dijkstra_while m g s)| |done].
  - intros; by eapply primary_nonneg_spec.
  - by apply inv_dijkstra_start.
  - simpl. eauto.
Qed.

Lemma dijkstra_run_state k m g s :
  NoDup (keys g) → primary_nonneg m g = true → s ∈ keys g →
  ensures (run_state k m g s)
    (λ st, ∃ nodes_r u_r, inv_dijkstra m g s nodes_r u_r st.1 st.2) (dangling g).
Proof.
  intros Hnd Hw Hs. destruct (start_state g s Hs) as (nodes0 & nodes1 & Hi & Hst & Hn).
  unfold run_state. rewrite Hi, Hst. simpl.
  eapply ensures_mono; [apply (dijkstra_turns m g s)| |done].
  - intros; by eapply primary_nonneg_spec.
  - by apply inv_dijkstra_start.
  - simpl. eauto.
Qed.

Lemma not_dangling g e : closed g = true → ¬ dangling g e.
Proof. intros Hc (x & y & _ & He & Hy). by apply Hy, (closed_edge g x y). Qed.

Lemma path_sum_finite w g p :
  (∀ x y e, edge g x y = Some e → Num.finite (w e)) →
  is_path g p = true → Num.finite (path_sum w g p).
Proof.
  intros Hw. induction p as [|a [|b r] IH]; intros Hp; try by eexists.
  cbn [is_path] in Hp. apply andb_true_iff in Hp as [[e He]%bool_decide_eq_true Hp].
  destruct (IH Hp) as [z' Hz']. destruct (Hw a b e He) as [z Hz].
  change (path_sum w g (a :: b :: r)) with
    (match edge g a b with
     | Some e => Num.add (w e) (path_sum w g (b :: r))
     | None => Inf
     end).
  rewrite He, Hz, Hz'. by eexists.
Qed.

Lemma path_sum_get m g p :
  path_sum (Edge.get m) g p =
  match m with Distance => path_sum Edge.distance g p | Cost => path_sum Edge.cost g p end.
Proof. by destruct m. Qed.

(** At the end of a run, the accumulators of every vertex that can be
    reached are those of a shortest path; the path is the predecessor
    chain of the vertex. *)
Lemma dijkstra_optimal m g s nodes_r u_r nodes v :
  primary_nonneg m g = true →
  inv_dijkstra m g s nodes_r u_r nodes [] → reachable g s v →
  ∃ n x tail, nodes !! v = Some n ∧ Node.get m n = Fin x ∧ chain nodes v tail ∧
    path_from_to g s v (rev (v :: tail)) ∧
    path_sum Edge.distance g (rev (v :: tail)) = Node.distance n ∧
    path_sum Edge.cost g (rev (v :: tail)) = Node.cost n ∧
    ∀ p, path_from_to g s v p → Num.le (Fin x) (path_sum (Edge.get m) g p).
Proof.
  intros Hw [Hcore Hrel] [p Hp].
  pose proof (core_start _ _ _ _ _ _ _ Hcore) as Hs.
  destruct (relaxed_path m g nodes p s v _ Hrel Hp Hs) as (n & Hn & Hle).
  assert (Num.finite (path_sum (Edge.get m) g p)) as [z Hz].
  { apply path_sum_finite; [|apply Hp]. intros a b e He.
    destruct (primary_nonneg_spec m g a b e Hw He) as (? & ? & _). by destruct m. }
  assert (∃ x, Node.get m n = Fin x) as [x Hx].
  { rewrite Hz in Hle. destruct (Node.get m n); [by eexists|]. by destruct m. }
  assert (v ∈ keys g) as Hv.
  { destruct (core_dom _ _ _ _ _ _ _ Hcore) as [Hdom _]. apply Hdom. eauto. }
  destruct (core_chain _ _ _ _ _ _ _ Hcore v Hv) as (tail & Hch & _).
  assert (Num.finite (Node.get m n)) as Hfin by (by eexists).
  pose proof (λ a b e, primary_nonneg_spec m g a b e Hw) as Hw'.
  destruct (chain_sums m g s Hw' nodes_r u_r nodes [] v tail Hcore Hch n Hn Hfin)
    as (Hpath & Hd & Hc).
  exists n, x, tail. split_and!; try done.
  intros q Hq.
  destruct (relaxed_path m g nodes q s v _ Hrel Hq Hs) as (n' & Hn' & Hle').
  rewrite Hn in Hn'. injection Hn' as <-. rewrite Hx in Hle'.
  destruct m; simpl in Hle'; by rewrite add_0_r in Hle'.
Qed.

Lemma is_dict_NoDup {V} (d : list (string * V)) : is_dict d = true → NoDup (keys d).
Proof. apply distinct_NoDup. Qed.

Lemma run_started g s nodes0 nodes :
  initialise g = (nodes0, keys g) → set_start nodes0 s = Ok nodes → s ∈ keys g.
Proof.
  intros Hi Hs. destruct (decide (s ∈ keys g)) as [|Hin]; [done|].
  destruct (start_absent g s Hin) as (nodes0' & Hi' & Hs').
  rewrite Hi in Hi'. injection Hi' as <-. congruence.
Qed.

Lemma calculate_started m g s nodes :
  calculate_shortest_paths m g s = Ok nodes → s ∈ keys g.
Proof.
  unfold calculate_shortest_paths. destruct (initialise_spec g) as (nodes0 & Hi & _).
  rewrite Hi. intros (nodes1 & Hs & _)%bind_ok. by eapply run_started.
Qed.

Lemma run_state_started k m g s st : run_state k m g s = Ok st → s ∈ keys g.
Proof.
  unfold run_state. destruct (initialise_spec g) as (nodes0 & Hi & _).
  rewrite Hi. intros (nodes1 & Hs & _)%bind_ok. by eapply run_started.
Qed.

(** On a graph all of whose neighbours are keys, the run returns. *)
Lemma calculate_shortest_paths_total m g s :
  is_dict g = true → primary_nonneg m g = true → closed g = true → s ∈ keys g →
  ∃ nodes, calculate_shortest_paths m g s = Ok nodes.
Proof.
  intros Hd%is_dict_NoDup Hw Hc Hs.
  destruct (ensures_returns _ _ _ (dijkstra_run m g s Hd Hw Hs)) as (nodes & Hn & _).
  - intros e. by apply not_dangling.
  - eauto.
Qed.

Lemma calculate_inv m g s nodes :
  is_dict g = true → primary_nonneg m g = true → calculate_shortest_paths m g s = Ok nodes →
  ∃ nodes_r u_r, inv_dijkstra m g s nodes_r u_r nodes [].
Proof.
  intros Hd%is_dict_NoDup Hw Hn.
  apply (ensures_ok _ _ _ _ (dijkstra_run m g s Hd Hw (calculate_started _ _ _ _ Hn)) Hn).
Qed.

Lemma best_path_chain nodes d tail fuel :
  chain nodes d tail → (length tail < fuel)%nat →
  best_path fuel nodes d = Ok (rev (d :: tail)) ∧
  get_best_path fuel nodes d = Ok (join_path (rev (d :: tail))).
Proof.
  intros Hch Hlen. unfold get_best_path, best_path.
  by rewrite (chain_walk_back nodes d tail Hch fuel [d] Hlen).
Qed.

Lemma chain_last nodes v tail :
  chain nodes v tail →
  ∃ l n, last (v :: tail) = Some l ∧ nodes !! l = Some n ∧ Node.best_neighbour n = None.
Proof.
  induction 1 as [v n Hv Hnone|v n p tail Hv Hp Hch (l & nl & Hl & Hnl & Hnone)].
  - by exists v, n.
  - exists l, nl. split; [|done]. by destruct tail.
Qed.

(** * The claims *)






Example cheapest_run : calculate_shortest_paths Cost diverging_graph "A" = Ok cheapest_nodes.
Proof. vm_compute. reflexivity. Qed.

Example shortest_run :
  calculate_shortest_paths Distance diverging_graph "A" = Ok shortest_nodes.
Proof. vm_compute. reflexivity. Qed.





Example first_turn :
  run_state 1 Distance diverging_graph "A" = Ok (nodes_after_first_turn, ["B"; "C"; "D"]).
Proof. vm_compute. reflexivity. Qed.

Example third_turn :
  run_state (1 + 2) Distance diverging_graph "A" = Ok (shortest_nodes, ["C"]).
Proof. vm_compute. reflexivity. Qed.


(** ** Path reconstruction on any table *)

Lemma drop_last_snoc (s : string) (c : Ascii.ascii) :
  drop_last (s +:+ String c EmptyString) = s.
Proof.
  induction s as [|a s IH]; [done|]. change (String a s +:+ String c "") with
    (String a (s +:+ String c "")). simpl. rewrite IH.
  by destruct s.
Qed.

Lemma join_path_singleton (d : vertex) : join_path [d] = d.
Proof. unfold join_path. simpl. apply drop_last_snoc. Qed.

(** The only exception of the loop of [get_best_path]: the vertex it is
    about to look up is not a key. *)
Lemma walk_back_raises (nodes : gmap vertex Node.t) fuel : ∀ d path e,
  walk_back fuel nodes d path = Raise e →
  ∃ k, e = KeyError k ∧ nodes !! k = None ∧ (k = d ∨ is_Some (nodes !! d)).
Proof.
  induction fuel as [|fuel IH]; intros d path e; simpl; [done|]. unfold nodes_get.
  destruct (nodes !! d) as [n|] eqn:Hd; simpl.
  - destruct (Node.best_neighbour n) as [p|]; [|done].
    intros (k & -> & Hk & _)%IH. exists k. eauto.
  - intros [= <-]. exists d. eauto.
Qed.

(** C4. Destinations that are not in the table.  If [destination] is not a
    key of [nodes], [get_best_path] raises [KeyError] for it at its first
    look-up and returns nothing; if it is a key, [get_best_path] does not
    raise that error, whatever the table: the only exception it can raise
    is a [KeyError] for another vertex, one that a predecessor link names
    and the table lacks. *)
Theorem get_best_path_invalid_destination (nodes : gmap vertex Node.t) (destination : vertex) :
  (nodes !! destination = None →
     ∀ fuel, (0 < fuel)%nat →
       get_best_path fuel nodes destination = Raise (KeyError destination)) ∧
  (is_Some (nodes !! destination) →
     ∀ fuel,
       get_best_path fuel nodes destination ≠ Raise (KeyError destination) ∧
       ∀ e, get_best_path fuel nodes destination = Raise e →
         ∃ k, e = KeyError k ∧ k ≠ destination ∧ nodes !! k = None).
Proof.
  split.
  - intros Hd [|fuel] Hfuel; [lia|]. unfold get_best_path, best_path. simpl.
    unfold nodes_get. by rewrite Hd.
  - intros [n Hd] fuel.
    assert (∀ e, get_best_path fuel nodes destination = Raise e →
              ∃ k, e = KeyError k ∧ k ≠ destination ∧ nodes !! k = None) as Hraise.
    { intros e. unfold get_best_path, best_path.
      destruct (walk_back fuel nodes destination [destination]) as [path|e'|] eqn:Hw;
        simpl; [done| |done].
      intros [= <-]. apply walk_back_raises in Hw as (k & -> & Hk & _).
      exists k. split_and!; [done| |done]. intros ->. congruence. }
    split; [|done]. intros (k & [= <-] & Hne & _)%Hraise. done.
Qed.

Lemma get_best_path_invalid_destination_witness :
  (∀ fuel, (0 < fuel)%nat → get_best_path fuel shortest_nodes "E" = Raise (KeyError "E")) ∧
  (∀ fuel,
     get_best_path fuel shortest_nodes "D" ≠ Raise (KeyError "D") ∧
     ∀ e, get_best_path fuel shortest_nodes "D" = Raise e →
       ∃ k, e = KeyError k ∧ k ≠ "D" ∧ shortest_nodes !! k = None).
Proof.
  split.
  - apply (proj1 (get_best_path_invalid_destination shortest_nodes "E")).
    vm_compute. reflexivity.
  - apply (proj2 (get_best_path_invalid_destination shortest_nodes "D")).
    vm_compute. eauto.
Defined.


Example island_run : calculate_shortest_paths Distance island_graph "A" = Ok island_nodes.
Proof. vm_compute. reflexivity. Qed.

Example island_report :
  print_shortest_path 3 island_graph "A" "C" =
  Ok ("Shortest path between A and C:" +:+ newline +:+
      "Path: C " +:+ newline +:+
      "Distance: inf" +:+ newline +:+
      "Cost of travel: inf" +:+ newline +:+ newline).
Proof. vm_compute. reflexivity. Qed.


(** C3, as the code has it.  When the start vertex is not a key of the
    graph, [calculate_shortest_paths] returns no table: the subscription
    [nodes[starting_vertex]] of line 86 raises [KeyError]. *)
Theorem start_vertex_absent (m : metric) (g : graph) (s : vertex) :
  s ∉ keys g → calculate_shortest_paths m g s = Raise (KeyError s).
Proof.
  intros Hs. destruct (start_absent g s Hs) as (nodes0 & Hi & Hst).
  unfold calculate_shortest_paths. by rewrite Hi, Hst.
Qed.

Lemma start_vertex_absent_witness :
  calculate_shortest_paths Distance example_graph "Z" = Raise (KeyError "Z").
Proof.
  apply (start_vertex_absent Distance example_graph "Z").
  intros H. by repeat (apply elem_of_cons in H as [H|H]; [done|]); apply elem_of_nil in H.
Defined.

(** C3, as the specification has it, fails: for the graph of the docstring
    and the start ["Z"], which is not one of its keys, no table is
    returned. *)
Lemma start_vertex_absent_counterexample :
  ¬ ∃ nodes, calculate_shortest_paths Distance example_graph "Z" = Ok nodes ∧
      ∀ v, v ∈ keys example_graph → nodes !! v = Some (Node.Make Inf Inf None).
Proof. intros (nodes & H & _). vm_compute in H. discriminate. Qed.

(** ** Finite accumulators *)

Section FiniteWeights.
Variables (m : metric) (g : graph) (s : vertex).
Hypothesis g_finite : finite_weights g = true.

Lemma finite_weights_spec x y e :
  edge g x y = Some e → Num.finite (Edge.distance e) ∧ Num.finite (Edge.cost e).
Proof.
  intros He. apply (all_edges_edge _ _ _ _ _ g_finite) in He.
  apply andb_true_iff in He as [?%is_finite_spec ?%is_finite_spec]. done.
Qed.

(** When the test of lines 119-120 succeeds, both candidates are finite. *)
Lemma improves_finite nodes c n e cur nb :
  both_or_neither nodes →
  edge g c n = Some e → nodes !! c = Some cur →
  improves m nb (Num.add (Edge.distance e) (Node.distance cur))
                (Num.add (Edge.cost e) (Node.cost cur)) = true →
  Num.finite (Num.add (Edge.distance e) (Node.distance cur)) ∧
  Num.finite (Num.add (Edge.cost e) (Node.cost cur)).
Proof.
  intros Hbn He Hc Himp. destruct (finite_weights_spec c n e He) as [[wd Hwd] [wc Hwc]].
  assert (Num.finite (Node.distance cur) ∧ Num.finite (Node.cost cur)) as [[d Hd] [c' Hc']].
  { destruct m; simpl in Himp; apply ltb_lt in Himp as (x & Hx & _);
      apply add_fin_inv in Hx as (? & z & _ & Hz & _).
    - split; [by eexists|]. apply (Hbn c cur Hc). by eexists.
    - split; [|by eexists]. apply (Hbn c cur Hc). by eexists. }
  rewrite Hwd, Hwc, Hd, Hc'. split; by eexists.
Qed.

Lemma both_or_neither_relax nodes c n nodes' :
  both_or_neither nodes → relax g c m nodes n = Ok nodes' → both_or_neither nodes'.
Proof.
  intros Hbn. unfold relax.
  intros (adj & _ & (e & _ & (cur & _ & (nb & Hnb & Hr)%bind_ok)%bind_ok)%bind_ok)%bind_ok.
  destruct (improves _ _ _ _); [|by injection Hr as <-].
  apply bind_ok in Hr as (d & _ & (c' & _ & [= <-])%bind_ok).
  intros v nv Hv. destruct (decide (n = v)) as [->|].
  - rewrite lookup_insert_eq in Hv. injection Hv as <-. simpl. split; intros _; by eexists.
  - rewrite lookup_insert_ne in Hv by done. by eapply Hbn.
Qed.

Lemma reached_both_or_neither nodes : reached m g s nodes → both_or_neither nodes.
Proof.
  induction 1 as [nodes0 nodes Hi Hs|nodes c n nodes' _ IH Hr].
  - pose proof (run_started g s nodes0 nodes Hi Hs) as Hin.
    destruct (start_state g s Hin) as (nodes0' & nodes1 & Hi' & Hs' & Hn).
    rewrite Hi in Hi'. injection Hi' as <-. rewrite Hs in Hs'. injection Hs' as <-.
    intros v n. rewrite Hn. destruct (decide (v = s)).
    + intros [= <-]. simpl. split; intros _; by eexists.
    + destruct (decide (v ∈ keys g)); [|done]. intros [= <-]. simpl.
      split; by intros [? ?].
  - by eapply both_or_neither_relax.
Qed.

(** A relaxation of an edge of the graph never applies [int] to infinity. *)
Lemma relax_no_overflow nodes c n :
  both_or_neither nodes → relax g c m nodes n ≠ Raise OverflowError.
Proof.
  intros Hbn. unfold relax, getitem.
  destruct (dict_lookup g c) as [adj|] eqn:Hadj; simpl; [|done].
  destruct (dict_lookup adj n) as [e|] eqn:He; simpl; [|done].
  unfold nodes_get. destruct (nodes !! c) as [cur|] eqn:Hc; simpl; [|done].
  destruct (nodes !! n) as [nb|] eqn:Hnb; simpl; [|done].
  destruct (improves _ _ _ _) eqn:Himp; [|done].
  destruct (improves_finite nodes c n e cur nb Hbn) as [[d ->] [c' ->]]; try done.
  apply edge_getitem. eauto.
Qed.

Definition inv_finite (nodes : gmap vertex Node.t) (u : list vertex) : Prop :=
  inv_any g s nodes u ∧ reached m g s nodes.

Definition for_finite (c : vertex) (seen : list vertex)
    (nodes : gmap vertex Node.t) (u : list vertex) : Prop :=
  for_any g s c seen nodes u ∧ reached m g s nodes.

Lemma for_finite_step c seen n e nodes u :
  for_finite c seen nodes u → edge g c n = Some e →
  ensures (relax g c m nodes n) (λ nodes', for_finite c (seen ++ [n]) nodes' u)
    (λ err, err ≠ OverflowError).
Proof.
  intros [Hany Hre] He.
  eapply ensures_both; [by eapply inv_any_step| |].
  - intros nodes' Hr. by eapply reached_relax.
  - intros err Hr ->.
    by apply (relax_no_overflow nodes c n (reached_both_or_neither nodes Hre)).
Qed.

Lemma finite_while nodes u :
  inv_finite nodes u →
  ensures (while_unvisited (length u) m g nodes u) (λ nodes', inv_finite nodes' [])
    (λ err, err ≠ OverflowError).
Proof.
  intros HI.
  apply (while_rule m g (λ err, err ≠ OverflowError) inv_finite for_finite); try done.
  - by intros ?? [[? ?] ?].
  - intros ???? [? ?] ???. split; [by eapply inv_any_enter|done].
  - apply for_finite_step.
  - by intros ???? _ [[? _] ?].
Qed.

Lemma finite_turns k nodes u :
  inv_finite nodes u →
  ensures (turns k m g nodes u) (λ st, inv_finite st.1 st.2) (λ err, err ≠ OverflowError).
Proof.
  apply (turns_rule m g (λ err, err ≠ OverflowError) inv_finite for_finite).
  - by intros ?? [[? ?] ?].
  - intros ???? [? ?] ???. split; [by eapply inv_any_enter|done].
  - apply for_finite_step.
  - by intros ???? _ [[? _] ?].
Qed.

Lemma inv_finite_start nodes0 nodes :
  initialise g = (nodes0, keys g) → set_start nodes0 s = Ok nodes →
  inv_finite nodes (keys g).
Proof. intros Hi Hs. split; [by eapply inv_any_start | by eapply reached_start]. Qed.

Lemma set_start_raises nodes0 err :
  initialise g = (nodes0, keys g) → set_start nodes0 s = Raise err → err = KeyError s.
Proof.
  intros Hi Hs. destruct (decide (s ∈ keys g)) as [Hin|Hin].
  - destruct (start_state g s Hin) as (nodes0' & nodes1 & Hi' & Hs' & _).
    rewrite Hi in Hi'. injection Hi' as <-. congruence.
  - destruct (start_absent g s Hin) as (nodes0' & Hi' & Hs').
    rewrite Hi in Hi'. injection Hi' as <-. congruence.
Qed.

Lemma finite_run : calculate_shortest_paths m g s ≠ Raise OverflowError.
Proof.
  unfold calculate_shortest_paths. destruct (initialise_spec g) as (nodes0 & Hi & _).
  rewrite Hi. destruct (set_start nodes0 s) as [nodes|err|] eqn:Hs; simpl; [| |done].
  - intros Hr. pose proof (finite_while nodes (keys g) (inv_finite_start _ _ Hi Hs)) as H.
    rewrite Hr in H. by apply H.
  - rewrite (set_start_raises nodes0 err Hi Hs). done.
Qed.

Lemma finite_run_state k :
  ensures (run_state k m g s) (λ st, reached m g s st.1) (λ err, err ≠ OverflowError).
Proof.
  unfold run_state. destruct (initialise_spec g) as (nodes0 & Hi & _).
  rewrite Hi. destruct (set_start nodes0 s) as [nodes|err|] eqn:Hs; simpl.
  - eapply ensures_mono; [apply (finite_turns k nodes (keys g))| |done].
    + by eapply inv_finite_start.
    + by intros st [_ ?].
  - rewrite (set_start_raises nodes0 err Hi Hs). done.
  - destruct (decide (s ∈ keys g)) as [Hin|Hin].
    + destruct (start_state g s Hin) as (nodes0' & nodes1 & Hi' & Hs' & _).
      rewrite Hi in Hi'. injection Hi' as <-. congruence.
    + destruct (start_absent g s Hin) as (nodes0' & Hi' & Hs').
      rewrite Hi in Hi'. injection Hi' as <-. congruence.
Qed.
End FiniteWeights.



(** Without finite weights the exception does occur: the model does not
    make the claim trivial. *)
Example infinite_weight_overflows :
  calculate_shortest_paths Distance
    [ ("A", [("B", Edge.Make (Fin 1) Inf)]); ("B", []) ] "A" = Raise OverflowError.
Proof. vm_compute. reflexivity. Qed.

Example example_table_graph :
  create_graph example_table =
  Ok [ ("A", [("B", Weights (fin_edge 10 200)); ("C", Weights (fin_edge 15 345))]);
       ("B", [("A", Weights (fin_edge 10 200))]);
       ("C", [("A", Weights (fin_edge 15 345))]) ].
Proof. vm_compute. reflexivity. Qed.

Section DictUpdates.
Context {V : Type}.
Implicit Types d : list (string * V).

Lemma dict_lookup_setitem_eq d k v : dict_lookup (setitem d k v) k = Some v.
Proof.
  induction d as [|[k' v'] d IH]; simpl.
  - by destruct (decide (k = k)).
  - destruct (decide (k' = k)) as [->|Hne]; simpl.
    + by destruct (decide (k = k)).
    + by destruct (decide (k' = k)).
Qed.

Lemma dict_lookup_setitem_ne d k v x :
  k ≠ x → dict_lookup (setitem d k v) x = dict_lookup d x.
Proof.
  intros Hne. induction d as [|[k' v'] d IH]; simpl.
  - by destruct (decide (k = x)).
  - destruct (decide (k' = k)) as [->|Hk]; simpl.
    + by destruct (decide (k = x)).
    + destruct (decide (k' = x)); [done|]. apply IH.
Qed.

Lemma dict_lookup_delitem_ne d k x :
  k ≠ x → dict_lookup (delitem d k) x = dict_lookup d x.
Proof.
  intros Hne. induction d as [|[k' v'] d IH]; simpl; [done|].
  destruct (decide (k' = k)) as [->|Hk]; simpl.
  - by destruct (decide (k = x)).
  - destruct (decide (k' = x)); [done|]. apply IH.
Qed.

Lemma keys_delitem d k x : x ∈ keys (delitem d k) → x ∈ keys d.
Proof.
  induction d as [|[k' v'] d IH]; simpl; [done|].
  destruct (decide (k' = k)); simpl; [by right|].
  intros [->|Hx]%elem_of_cons; [by left | right; auto].
Qed.

Lemma delitem_NoDup d k : NoDup (keys d) → NoDup (keys (delitem d k)).
Proof.
  induction d as [|[k' v'] d IH]; simpl; [done|]. intros [Hk Hd]%NoDup_cons.
  destruct (decide (k' = k)); simpl; [done|]. apply NoDup_cons. split; [|auto].
  intros Hin. by apply Hk, (keys_delitem d k).
Qed.

Lemma dict_lookup_delitem_eq d k : NoDup (keys d) → dict_lookup (delitem d k) k = None.
Proof.
  induction d as [|[k' v'] d IH]; simpl; [done|]. intros [Hk Hd]%NoDup_cons.
  destruct (decide (k' = k)) as [->|Hne]; simpl.
  - by apply dict_lookup_None.
  - destruct (decide (k' = k)); [done|]. auto.
Qed.

Lemma keys_setitem d k v x : x ∈ keys (setitem d k v) → x = k ∨ x ∈ keys d.
Proof.
  induction d as [|[k' v'] d IH]; simpl.
  - intros [->|?]%elem_of_cons; auto.
  - destruct (decide (k' = k)) as [->|Hne]; simpl.
    + intros [->|?]%elem_of_cons; [by left | right; by right].
    + intros [->|Hx]%elem_of_cons; [right; by left|].
      destruct (IH Hx); [by left | right; by right].
Qed.

Lemma setitem_NoDup d k v : NoDup (keys d) → NoDup (keys (setitem d k v)).
Proof.
  induction d as [|[k' v'] d IH]; simpl.
  - intros _. apply NoDup_singleton.
  - intros [Hk Hd]%NoDup_cons. destruct (decide (k' = k)) as [->|Hne]; simpl.
    + by apply NoDup_cons.
    + apply NoDup_cons. split; [|auto]. intros [?|?]%keys_setitem; done.
Qed.
End DictUpdates.

(** *** One row *)

Lemma convert_cell_spec row k values row' :
  convert_cell row k values = Ok row' →
  ∃ numbers, astype_int (findall_digits values "") = Ok numbers ∧
    ((0 ∈ numbers ∧ row' = delitem row k) ∨
     ((0 ∉ numbers) ∧ ∃ e, row' = setitem row k (Weights e))).
Proof.
  unfold convert_cell. intros (numbers & Hn & H)%bind_ok. exists numbers. split; [done|].
  destruct (bool_decide (0 ∈ numbers)) eqn:Hz.
  - left. apply bool_decide_eq_true in Hz. by injection H as <-.
  - right. apply bool_decide_eq_false in Hz. split; [done|].
    destruct numbers as [|n0 [|n1 ?]]; try done. injection H as <-. eauto.
Qed.

Lemma convert_cell_NoDup row k values row' :
  convert_cell row k values = Ok row' → NoDup (keys row) → NoDup (keys row').
Proof.
  intros (numbers & _ & [[_ ->]|(_ & e & ->)])%convert_cell_spec.
  - apply delitem_NoDup.
  - apply setitem_NoDup.
Qed.

(** No step of the conversion gives a key that has no value a value, except
    to the key it converts; and none makes a value text. *)
Lemma convert_cell_other row k values row' x :
  convert_cell row k values = Ok row' → k ≠ x → dict_lookup row' x = dict_lookup row x.
Proof.
  intros (numbers & _ & [[_ ->]|(_ & e & ->)])%convert_cell_spec Hne.
  - by apply dict_lookup_delitem_ne.
  - by apply dict_lookup_setitem_ne.
Qed.

Lemma convert_cell_text row k values row' :
  convert_cell row k values = Ok row' → NoDup (keys row) →
  ∀ t, dict_lookup row' k ≠ Some (Text t).
Proof.
  intros (numbers & _ & [[_ ->]|(_ & e & ->)])%convert_cell_spec Hnd t.
  - by rewrite dict_lookup_delitem_eq.
  - by rewrite dict_lookup_setitem_eq.
Qed.

Lemma convert_cells_other items : ∀ row row' x,
  convert_cells items row = Ok row' → x ∉ keys items →
  dict_lookup row' x = dict_lookup row x.
Proof.
  induction items as [|[k values] items IH]; intros row row' x; simpl.
  - by intros [= <-].
  - intros (row1 & H1 & Hrest)%bind_ok Hx.
    rewrite (IH row1 row' x Hrest), (convert_cell_other row k values row1 x H1); [done| |].
    + intros ->. apply Hx. by left.
    + intros Hin. apply Hx. by right.
Qed.

Lemma convert_cells_NoDup items : ∀ row row',
  convert_cells items row = Ok row' → NoDup (keys row) → NoDup (keys row').
Proof.
  induction items as [|[k values] items IH]; intros row row'; simpl.
  - by intros [= <-].
  - intros (row1 & H1 & Hrest)%bind_ok Hnd.
    eapply IH; [done|]. by eapply convert_cell_NoDup.
Qed.

(** A cell with a zero reading leaves no entry under its key. *)
Lemma convert_cells_zero items : ∀ row row' k values numbers,
  convert_cells items row = Ok row' →
  NoDup (keys items) → NoDup (keys row) →
  (k, values) ∈ items →
  astype_int (findall_digits values "") = Ok numbers → 0 ∈ numbers →
  dict_lookup row' k = None.
Proof.
  induction items as [|[k1 v1] items IH]; intros row row' k values numbers; simpl.
  - by intros _ _ _ ?%elem_of_nil.
  - intros (row1 & H1 & Hrest)%bind_ok [Hk1 Hnd]%NoDup_cons Hrow Hin Hnum Hzero.
    apply elem_of_cons in Hin as [[= <- <-]|Hin].
    + rewrite (convert_cells_other items row1 row' k Hrest Hk1).
      apply convert_cell_spec in H1 as (numbers' & Hn' & [[_ ->]|[Hnz _]]).
      * by apply dict_lookup_delitem_eq.
      * rewrite Hnum in Hn'. by injection Hn' as <-.
    + eapply (IH row1 row' k values numbers); try done.
      by eapply convert_cell_NoDup.
Qed.

(** The text of a converted row was text of the row as read, under a key
    that was not converted. *)
Lemma convert_cells_text items : ∀ row row' x t,
  convert_cells items row = Ok row' → NoDup (keys row) →
  dict_lookup row' x = Some (Text t) →
  dict_lookup row x = Some (Text t) ∧ x ∉ keys items.
Proof.
  induction items as [|[k values] items IH]; intros row row' x t; simpl.
  - intros [= <-] _ Hx. split; [done|]. apply not_elem_of_nil.
  - intros (row1 & H1 & Hrest)%bind_ok Hnd Hx.
    destruct (IH row1 row' x t Hrest) as [Hx1 Hnotin]; [by eapply convert_cell_NoDup|done|].
    destruct (decide (k = x)) as [->|Hne].
    + by destruct (convert_cell_text row x values row1 H1 Hnd t).
    + rewrite (convert_cell_other row k values row1 x H1 Hne) in Hx1. split; [done|].
      intros [->|?]%elem_of_cons; done.
Qed.

Lemma astype_int_readings strings numbers :
  astype_int strings = Ok numbers → numbers = map (λ s, int_of_digits s 0) strings.
Proof.
  revert numbers. induction strings as [|s strings IH]; intros numbers; simpl.
  - by intros [= <-].
  - destruct (2 ^ 63 <=? int_of_digits s 0); [done|].
    intros (rest & Hrest & [= <-])%bind_ok. by rewrite (IH rest Hrest).
Qed.

Lemma dict_lookup_text (row : list (string * string)) k :
  dict_lookup (map (λ item, (item.1, Text item.2)) row) k = Text <$> dict_lookup row k.
Proof.
  induction row as [|[k' v'] row IH]; simpl; [done|]. by destruct (decide (k' = k)).
Qed.

Lemma keys_text (row : list (string * string)) :
  keys (map (λ item, (item.1, Text item.2)) row) = keys row.
Proof. unfold keys. rewrite map_map. by apply map_ext. Qed.

Lemma convert_row_point row p adj :
  is_dict row = true → convert_row row = Ok (p, adj) → dict_lookup row "POINT" = Some p.
Proof.
  intros Hd%is_dict_NoDup. unfold convert_row, getitem.
  intros (converted & Hc & (sp & Hsp & H)%bind_ok)%bind_ok.
  destruct (dict_lookup converted "POINT") as [c|] eqn:Hp; [|done]. injection Hsp as ->.
  destruct sp as [t|e]; [|done]. injection H as -> _.
  destruct (convert_cells_text _ _ _ "POINT" p Hc) as [Hrow _]; [by rewrite keys_text|done|].
  rewrite dict_lookup_text in Hrow.
  destruct (dict_lookup row "POINT"); simpl in Hrow; congruence.
Qed.

Lemma convert_row_zero row p adj i k values :
  is_dict row = true → convert_row row = Ok (p, adj) →
  row !! i = Some (k, values) → (0 < i)%nat → 0 ∈ readings values →
  dict_lookup adj k = None.
Proof.
  intros Hd%is_dict_NoDup. unfold convert_row, getitem.
  intros (converted & Hc & (sp & Hsp & H)%bind_ok)%bind_ok Hi Hpos Hzero.
  destruct sp as [t|e]; [|done]. injection H as _ <-.
  assert (NoDup (keys (tail row))) as Hnd.
  { destruct row; [done|]. simpl in *. by apply NoDup_cons in Hd as [_ ?]. }
  assert ((k, values) ∈ tail row) as Hin.
  { destruct i as [|i]; [lia|]. destruct row; [done|]. simpl in *.
    by eapply list_elem_of_lookup_2. }
  assert (∃ numbers, astype_int (findall_digits values "") = Ok numbers) as [numbers Hnum].
  { clear -Hc Hin. revert Hc Hin. generalize (map (λ item, (item.1, Text item.2)) row).
    induction (tail row) as [|[k1 v1] items IH]; intros r; simpl.
    - by intros _ ?%elem_of_nil.
    - intros (r1 & H1 & Hrest)%bind_ok [[= <- <-]|Hin]%elem_of_cons; [|eauto].
      apply convert_cell_spec in H1 as (numbers & ? & _). eauto. }
  assert (dict_lookup converted k = None) as Hnone.
  { eapply (convert_cells_zero _ _ _ k values numbers Hc); try done.
    - by rewrite keys_text.
    - by rewrite (astype_int_readings _ _ Hnum). }
  destruct (decide ("POINT" = k)) as [<-|Hne].
  - apply dict_lookup_delitem_eq. eapply convert_cells_NoDup; [done|]. by rewrite keys_text.
  - by rewrite dict_lookup_delitem_ne.
Qed.

(** *** The table *)

Lemma add_rows_keeps rows : ∀ connections g p adj,
  add_rows rows connections = Ok g → dict_lookup connections p = Some adj →
  (∀ row p' adj', row ∈ rows → convert_row row = Ok (p', adj') → p' ≠ p) →
  dict_lookup g p = Some adj.
Proof.
  induction rows as [|r rows IH]; intros connections g p adj; simpl.
  - by intros [= <-].
  - intros ([p0 adj0] & Hr & Hrest)%bind_ok Hp Hother.
    eapply IH; [done| |].
    + rewrite dict_lookup_setitem_ne; [done|]. eapply Hother; [by left|done].
    + intros row p' adj' Hin. apply Hother. by right.
Qed.

Lemma add_rows_converts rows : ∀ connections g j row,
  add_rows rows connections = Ok g → rows !! j = Some row →
  ∃ p adj, convert_row row = Ok (p, adj) ∧
    ((∀ j' row' p' adj', (j < j')%nat → rows !! j' = Some row' →
        convert_row row' = Ok (p', adj') → p' ≠ p) →
     dict_lookup g p = Some adj).
Proof.
  induction rows as [|r rows IH]; intros connections g j row; simpl; [done|].
  intros ([p0 adj0] & Hr & Hrest)%bind_ok Hj. destruct j as [|j]; simpl in Hj.
  - injection Hj as <-. exists p0, adj0. split; [done|]. intros Hlater.
    eapply add_rows_keeps; [done|apply dict_lookup_setitem_eq|].
    intros row p' adj' [j' Hj']%list_elem_of_lookup_1 Hrow.
    eapply (Hlater (S j')); [lia|done|done].
  - destruct (IH _ g j row Hrest Hj) as (p & adj & Hrow & Hlast).
    exists p, adj. split; [done|]. intros Hlater. apply Hlast.
    intros j' row' p' adj' Hlt Hj'. apply (Hlater (S j')); [lia|done].
Qed.



(** * Further properties of the code *)

(** ** The engine on any graph *)

(** What a relaxation that returns has done. *)
Lemma relax_ok (g : graph) c m (nodes nodes' : gmap vertex Node.t) n :
  relax g c m nodes n = Ok nodes' →
  ∃ e cur nb, edge g c n = Some e ∧ nodes !! c = Some cur ∧ nodes !! n = Some nb ∧
    (nodes' = nodes ∨
     ∃ d c', Num.add (Edge.distance e) (Node.distance cur) = Fin d ∧
       Num.add (Edge.cost e) (Node.cost cur) = Fin c' ∧
       ¬ Num.le (Node.get m nb) (Node.get m (Node.Make (Fin c') (Fin d) (Some c))) ∧
       nodes' = <[n := Node.Make (Fin c') (Fin d) (Some c)]> nodes).
Proof.
  unfold relax, getitem, nodes_get. intros Hr.
  destruct (dict_lookup g c) as [adj|] eqn:Hadj; simpl in Hr; [|done].
  destruct (dict_lookup adj n) as [e|] eqn:He; simpl in Hr; [|done].
  destruct (nodes !! c) as [cur|] eqn:Hc; simpl in Hr; [|done].
  destruct (nodes !! n) as [nb|] eqn:Hn; simpl in Hr; [|done].
  exists e, cur, nb. split_and!; try done; [apply edge_getitem; eauto|].
  destruct (improves _ _ _ _) eqn:Himp; [|left; congruence]. right.
  destruct (Num.add (Edge.distance e) _) as [d|] eqn:Hd; simpl in Hr; [|done].
  destruct (Num.add (Edge.cost e) _) as [c'|] eqn:Hc'; simpl in Hr; [|done].
  exists d, c'. split_and!; try done; [|congruence].
  unfold improves, Num.gtb in Himp.
  destruct m; apply ltb_lt in Himp as (x & _ & Hnle); done.
Qed.

Section AnyRun.
Variables (m : metric) (g : graph) (s : vertex).

Definition inv_relaxes (nodes_r : gmap vertex Node.t)
    (nodes : gmap vertex Node.t) (u : list vertex) : Prop :=
  inv_any g s nodes u ∧ relaxes m g nodes_r nodes.

Definition for_relaxes (nodes_r : gmap vertex Node.t) (c : vertex) (seen : list vertex)
    (nodes : gmap vertex Node.t) (u : list vertex) : Prop :=
  for_any g s c seen nodes u ∧ relaxes m g nodes_r nodes.

Lemma for_relaxes_step nodes_r c seen n e nodes u :
  for_relaxes nodes_r c seen nodes u → edge g c n = Some e →
  ensures (relax g c m nodes n) (λ nodes', for_relaxes nodes_r c (seen ++ [n]) nodes' u)
    (λ _, True).
Proof.
  intros [Hany Hre] He.
  eapply ensures_both; [by eapply inv_any_step| |done].
  intros nodes' Hr. by eapply relaxes_step.
Qed.

Lemma turns_relaxes k nodes u :
  inv_any g s nodes u →
  ensures (turns k m g nodes u) (λ st, inv_relaxes nodes st.1 st.2) (λ _, True).
Proof.
  intros HI.
  apply (turns_rule m g (λ _, True) (inv_relaxes nodes) (for_relaxes nodes)).
  - by intros ?? [[? ?] ?].
  - intros ???? [? ?] ???. split; [by eapply inv_any_enter|done].
  - apply for_relaxes_step.
  - by intros ???? _ [[? _] ?].
  - split; [done|constructor].
Qed.

Lemma while_relaxes nodes u :
  inv_any g s nodes u →
  ensures (while_unvisited (length u) m g nodes u) (λ nodes', relaxes m g nodes nodes')
    (λ _, True).
Proof.
  intros HI.
  eapply ensures_mono;
    [apply (while_rule m g (λ _, True) (inv_relaxes nodes) (for_relaxes nodes))| |done].
  - by intros ?? [[? ?] ?].
  - intros ???? [? ?] ???. split; [by eapply inv_any_enter|done].
  - apply for_relaxes_step.
  - by intros ???? _ [[? _] ?].
  - split; [done|constructor].
  - done.
  - by intros nodes' [_ ?].
Qed.

(** The table of a run that returns comes from the table the loop starts
    with, by relaxations. *)
Lemma calculate_relaxes nodes :
  calculate_shortest_paths m g s = Ok nodes →
  ∃ nodes0 nodes1, initialise g = (nodes0, keys g) ∧ set_start nodes0 s = Ok nodes1 ∧
    relaxes m g nodes1 nodes.
Proof.
  unfold calculate_shortest_paths. destruct (initialise_spec g) as (nodes0 & Hi & _).
  rewrite Hi. intros (nodes1 & Hs & Hw)%bind_ok. exists nodes0, nodes1.
  split_and!; [done|done|].
  apply (ensures_ok _ _ _ _ (while_relaxes nodes1 (keys g) (inv_any_start g s _ _ Hi Hs)) Hw).
Qed.
End AnyRun.

Lemma relaxes_is_Some m g (nodes nodes' : gmap vertex Node.t) v :
  relaxes m g nodes nodes' → is_Some (nodes' !! v) ↔ is_Some (nodes !! v).
Proof.
  induction 1 as [|c n nodes' nodes'' _ IH Hr]; [done|]. rewrite <- IH.
  apply relax_ok in Hr as (e & cur & nb & _ & _ & Hn & [->|(d & c' & _ & _ & _ & ->)]);
    [done|]. by eapply insert_is_Some.
Qed.

(** X1. The table that [calculate_shortest_paths] returns has exactly the
    keys of the graph, the start among them, whatever the weights are. *)
Theorem result_keys (m : metric) (g : graph) (s : vertex) (nodes : gmap vertex Node.t) :
  calculate_shortest_paths m g s = Ok nodes →
  s ∈ keys g ∧ ∀ v, is_Some (nodes !! v) ↔ v ∈ keys g.
Proof.
  intros Hn. split; [by eapply calculate_started|].
  destruct (inv_any_result m g s nodes Hn) as [[Hdom _] _]. done.
Qed.

Lemma result_keys_witness :
  "A" ∈ keys diverging_graph ∧
  ∀ v, is_Some (cheapest_nodes !! v) ↔ v ∈ keys diverging_graph.
Proof. apply (result_keys Cost diverging_graph "A" cheapest_nodes). exact cheapest_run. Defined.

(** X2. Predecessors follow edges.  In the table of any run that returns,
    whatever the weights are, a predecessor recorded for [v] is a key of
    the graph with an edge to [v], and both accumulators of [v] are then
    integers. *)
Theorem predecessor_is_neighbour (m : metric) (g : graph) (s v p : vertex)
    (nodes : gmap vertex Node.t) (n : Node.t) :
  calculate_shortest_paths m g s = Ok nodes →
  nodes !! v = Some n → Node.best_neighbour n = Some p →
  is_Some (edge g p v) ∧ p ∈ keys g ∧
  Num.finite (Node.distance n) ∧ Num.finite (Node.cost n).
Proof.
  intros Hn. pose proof (calculate_started m g s nodes Hn) as Hs.
  destruct (inv_any_result m g s nodes Hn) as [[Hkeys _] _].
  destruct (calculate_relaxes m g s nodes Hn) as (nodes0 & nodes1 & Hi & Hst & Hre).
  destruct (start_state g s Hs) as (nodes0' & nodes1' & Hi' & Hst' & Hstart).
  rewrite Hi in Hi'. injection Hi' as <-. rewrite Hst in Hst'. injection Hst' as <-.
  cut (∀ v n p, nodes !! v = Some n → Node.best_neighbour n = Some p →
         is_Some (edge g p v) ∧ is_Some (nodes !! p) ∧
         Num.finite (Node.distance n) ∧ Num.finite (Node.cost n)).
  { intros H Hv Hp. destruct (H v n p Hv Hp) as (? & ?%Hkeys & ? & ?). done. }
  clear Hn Hkeys v n p. induction Hre as [|c x nodes' nodes'' _ IH Hr]; intros v n p.
  - rewrite Hstart. destruct (decide (v = s)); [by intros [= <-]|].
    destruct (decide (v ∈ keys g)); [by intros [= <-]|done].
  - apply relax_ok in Hr as (e & cur & nb & He & Hc & Hx & [->|(d & c' & _ & _ & _ & ->)]);
      [apply IH|].
    destruct (decide (x = v)) as [->|Hne].
    + rewrite lookup_insert_eq. intros [= <-] [= <-]. simpl.
      split_and!; [eauto| |by eexists|by eexists]. eapply insert_is_Some; eauto.
    + rewrite lookup_insert_ne by done. intros Hv Hp.
      destruct (IH v n p Hv Hp) as (? & ? & ? & ?). split_and!; try done.
      eapply insert_is_Some; eauto.
Qed.

Lemma predecessor_is_neighbour_witness :
  is_Some (edge diverging_graph "C" "D") ∧ "C" ∈ keys diverging_graph ∧
  Num.finite (Fin 10) ∧ Num.finite (Fin 2).
Proof.
  apply (predecessor_is_neighbour Cost diverging_graph "A" "D" "C" cheapest_nodes
           (Node.Make (Fin 2) (Fin 10) (Some "C"))).
  - exact cheapest_run.
  - vm_compute. reflexivity.
  - reflexivity.
Defined.

Lemma relaxes_le m g (nodes nodes' : gmap vertex Node.t) v n :
  relaxes m g nodes nodes' → nodes !! v = Some n →
  ∃ n', nodes' !! v = Some n' ∧ Num.le (Node.get m n') (Node.get m n).
Proof.
  intros Hre Hv. induction Hre as [|c x nodes' nodes'' _ IH Hr].
  - exists n. split; [done|apply le_refl].
  - destruct IH as (n' & Hn' & Hle).
    apply relax_ok in Hr as (e & cur & nb & _ & _ & Hx & [->|(d & c' & _ & _ & Hlt & ->)]);
      [eauto|].
    destruct (decide (x = v)) as [->|Hne].
    + rewrite lookup_insert_eq. eexists. split; [done|].
      rewrite Hn' in Hx. injection Hx as <-.
      destruct (le_total (Node.get m n') (Node.get m (Node.Make (Fin c') (Fin d) (Some c))));
        [done|]. eauto using le_trans.
    + rewrite lookup_insert_ne by done. eauto.
Qed.

Lemma run_state_turns k j m g s nodes u :
  run_state k m g s = Ok (nodes, u) →
  run_state (k + j) m g s = turns j m g nodes u.
Proof.
  unfold run_state. destruct (initialise g) as [nodes0 u0].
  destruct (set_start nodes0 s) as [nodes1| |]; simpl; [|done|done].
  rewrite turns_add. by intros ->.
Qed.

(** X3. Accumulators never increase.  During a run on any graph, from one
    turn of the loop to any later one, the accumulator of the run's metric
    of every vertex stays or decreases. *)
Theorem accumulators_never_increase (m : metric) (g : graph) (s v : vertex) (k j : nat)
    (nodes nodes' : gmap vertex Node.t) (u u' : list vertex) (n : Node.t) :
  run_state k m g s = Ok (nodes, u) → run_state (k + j) m g s = Ok (nodes', u') →
  nodes !! v = Some n →
  ∃ n', nodes' !! v = Some n' ∧ Num.le (Node.get m n') (Node.get m n).
Proof.
  intros Hk Hkj Hv. rewrite (run_state_turns k j m g s nodes u Hk) in Hkj.
  pose proof (inv_any_turns m g s k nodes u Hk) as Hany.
  destruct (ensures_ok _ _ _ _ (turns_relaxes m g s j nodes u Hany) Hkj) as [_ Hre].
  by eapply relaxes_le.
Qed.

Lemma accumulators_never_increase_witness :
  ∃ n', shortest_nodes !! "D" = Some n' ∧ Num.le (Node.get Distance n') Inf.
Proof.
  apply (accumulators_never_increase Distance diverging_graph "A" "D" 1 2
           nodes_after_first_turn shortest_nodes ["B"; "C"; "D"] ["C"]
           (Node.Make Inf Inf None)).
  - exact first_turn.
  - exact third_turn.
  - vm_compute. reflexivity.
Defined.

Lemma turns_length m g s k : ∀ nodes u nodes' u',
  inv_any g s nodes u → turns k m g nodes u = Ok (nodes', u') →
  length u' = (length u - k)%nat.
Proof.
  induction k as [|k IH]; intros nodes u nodes' u' HI; simpl.
  - intros [= <- <-]. lia.
  - destruct u as [|first rest]; [by intros [= <- <-]|].
    intros ([nodes1 u1] & Hit & Hrest)%bind_ok.
    pose proof (iteration_rule m g (λ _, True) (inv_any g s) (for_any g s)
      ltac:(by intros ?? [? ?])
      ltac:(intros; by eapply inv_any_enter)
      (inv_any_step m g s)
      ltac:(by intros ???? _ [? _])
      nodes first rest HI) as H.
    rewrite Hit in H. destruct H as [HI1 Hlen]. simpl in *.
    rewrite (IH nodes1 u1 nodes' u' HI1 Hrest). lia.
Qed.

(** X4. One vertex leaves per turn.  On any graph, after [k] turns of the
    loop the list of unvisited nodes has [k] elements fewer (none once [k]
    reaches the number of keys), so the loop ends within as many turns as
    the graph has keys: the run stops, with a table or with an exception. *)
Theorem one_vertex_per_turn (m : metric) (g : graph) (s : vertex) :
  calculate_shortest_paths m g s ≠ OutOfFuel ∧
  ∀ k nodes u, run_state k m g s = Ok (nodes, u) →
    length u = (length (keys g) - k)%nat.
Proof.
  split; [apply calculate_shortest_paths_stops|].
  intros k nodes u. unfold run_state. destruct (initialise_spec g) as (nodes0 & Hi & _).
  rewrite Hi. intros (nodes1 & Hs & Ht)%bind_ok.
  apply (turns_length m g s k nodes1 (keys g) nodes u); [by eapply inv_any_start|done].
Qed.

(** ** The engine on graphs without negative weights *)

Lemma dict_lookup_NoDup {V} (d : list (string * V)) k v :
  NoDup (keys d) → (k, v) ∈ d → dict_lookup d k = Some v.
Proof.
  induction d as [|[k' v'] d IH]; simpl; [by intros _ ?%elem_of_nil|].
  intros [Hk Hd]%NoDup_cons [[= -> ->]|Hin]%elem_of_cons.
  - by destruct (decide (k' = k')).
  - destruct (decide (k' = k)) as [->|]; [|auto]. destruct Hk.
    apply list_elem_of_fmap. by exists (k, v).
Qed.

Lemma closed_intro g :
  NoDup (keys g) → (∀ x y, is_Some (edge g x y) → y ∈ keys g) → closed g = true.
Proof.
  intros Hnd Hedges. unfold closed. apply forallb_forall. intros [x adj] Hentry.
  apply forallb_forall. intros [y e] Hitem. simpl. apply bool_decide_eq_true.
  apply (Hedges x y). apply list_elem_of_In in Hentry, Hitem.
  destruct (keys_dict_lookup adj y) as [e' He'].
  { apply list_elem_of_fmap. by exists (y, e). }
  exists e'. apply edge_getitem. exists adj. split; [|done]. by apply dict_lookup_NoDup.
Qed.



Lemma run_closed m g s nodes :
  is_dict g = true → primary_nonneg m g = true →
  calculate_shortest_paths m g s = Ok nodes → closed g = true.
Proof.
  intros Hd Hw Hn.
  destruct (calculate_inv m g s nodes Hd Hw Hn) as (nodes_r & u_r & [Hcore Hrel]).
  destruct (core_dom _ _ _ _ _ _ _ Hcore) as [Hdom _].
  apply closed_intro; [by apply is_dict_NoDup|]. intros a b [e He].
  assert (a ∈ keys g) as Ha.
  { apply edge_getitem in He as (adj & Hadj%dict_lookup_keys & _). done. }
  destruct (proj2 (Hdom a) Ha) as [na Hna].
  destruct (Hrel a b e na) as (nb & Hb & _); [apply not_elem_of_nil|done|done|].
  apply Hdom. eauto.
Qed.



Lemma finite_reachable (m : metric) (g : graph) (s v : vertex)
    (nodes : gmap vertex Node.t) (n : Node.t) :
  is_dict g = true → primary_nonneg m g = true →
  calculate_shortest_paths m g s = Ok nodes → nodes !! v = Some n →
  (Num.finite (Node.get m n) ↔ reachable g s v) ∧
  (¬ reachable g s v → n = Node.Make Inf Inf None).
Proof.
  intros Hd Hw Hn Hv.
  destruct (calculate_inv m g s nodes Hd Hw Hn) as (nodes_r & u_r & Hinv).
  pose proof Hinv as [Hcore Hrel].
  pose proof (λ a b e, primary_nonneg_spec m g a b e Hw) as Hw'.
  assert (Num.finite (Node.get m n) → reachable g s v) as Hreach.
  { intros Hfin.
    assert (v ∈ keys g) as Hin.
    { destruct (core_dom _ _ _ _ _ _ _ Hcore) as [Hdom _]. apply Hdom. eauto. }
    destruct (core_chain _ _ _ _ _ _ _ Hcore v Hin) as (tail & Hch & _).
    destruct (chain_sums m g s Hw' nodes_r u_r nodes [] v tail Hcore Hch n Hv Hfin)
      as (Hpath & _). by eexists. }
  split; [split; [done|]|].
  - intros Hr.
    destruct (dijkstra_optimal m g s nodes_r u_r nodes v Hw Hinv Hr) as (n' & x & _ & Hv' & Hx & _).
    rewrite Hv in Hv'. injection Hv' as <-. by eexists.
  - intros Hnot.
    assert (Node.get m n = Inf) as Hinf.
    { destruct (Node.get m n) eqn:Hg; [|done]. destruct Hnot. apply Hreach. by eexists. }
    assert (v ≠ s) as Hne.
    { intros ->. apply Hnot. by exists [s]. }
    destruct (Node.best_neighbour n) as [p|] eqn:Hp.
    + destruct (core_pred _ _ _ _ _ _ _ Hcore v n p Hv Hp)
        as (_ & _ & _ & _ & _ & _ & _ & [d Hd'] & [c Hc']).
      destruct m; simpl in Hinf; congruence.
    + destruct (core_none _ _ _ _ _ _ _ Hcore v n Hv Hne Hp) as [Hc Hdist].
      destruct n; simpl in *. congruence.
Qed.

(** X7. Reached means reachable.  On a graph without negative weights in
    the run's metric, the accumulator of that metric of a vertex is finite
    in the result exactly when the vertex can be reached from the start
    along edges; a vertex that cannot keeps the entry it was created with:
    both accumulators infinite and no predecessor. *)
Theorem finite_iff_reachable (m : metric) (g : graph) (s v : vertex)
    (nodes : gmap vertex Node.t) (n : Node.t) :
  is_dict g = true → primary_nonneg m g = true →
  calculate_shortest_paths m g s = Ok nodes → nodes !! v = Some n →
  (Num.finite (Node.get m n) ↔ reachable g s v) ∧
  (¬ reachable g s v → n = Node.Make Inf Inf None).
Proof. apply finite_reachable. Qed.

Lemma finite_iff_reachable_witness :
  (Num.finite (Node.get Distance (Node.Make Inf Inf None)) ↔ reachable island_graph "A" "C") ∧
  (¬ reachable island_graph "A" "C" → Node.Make Inf Inf None = Node.Make Inf Inf None).
Proof.
  apply (finite_iff_reachable Distance island_graph "A" "C" island_nodes).
  - reflexivity.
  - reflexivity.
  - exact island_run.
  - vm_compute. reflexivity.
Defined.

Lemma is_path_cons g x y r :
  is_path g (x :: y :: r) = true ↔ is_Some (edge g x y) ∧ is_path g (y :: r) = true.
Proof.
  change (is_path g (x :: y :: r)) with
    (bool_decide (is_Some (edge g x y)) && is_path g (y :: r)).
  by rewrite andb_true_iff, bool_decide_eq_true.
Qed.

Lemma path_sum_cons w g x y r e :
  edge g x y = Some e →
  path_sum w g (x :: y :: r) = Num.add (w e) (path_sum w g (y :: r)).
Proof.
  intros He. change (path_sum w g (x :: y :: r)) with
    (match edge g x y with
     | Some e => Num.add (w e) (path_sum w g (y :: r))
     | None => Inf
     end).
  by rewrite He.
Qed.

(** On a symmetric graph a path can be walked backwards, for the same
    weight. *)
Lemma path_rev m g p :
  symmetric m g → is_path g p = true →
  is_path g (rev p) = true ∧ path_sum (Edge.get m) g (rev p) = path_sum (Edge.get m) g p.
Proof.
  intros Hsym. induction p as [|x [|y r] IH]; intros Hp; [done|done|].
  apply is_path_cons in Hp as [[e He] Hp]. destruct (IH Hp) as [Hrev Hsum].
  destruct (Hsym x y e He) as (e' & He' & Hw).
  change (rev (x :: y :: r)) with ((rev r ++ [y]) ++ [x]).
  change (rev (y :: r)) with (rev r ++ [y]) in Hrev, Hsum.
  split.
  - apply is_path_snoc; eauto.
  - rewrite (path_sum_snoc _ _ _ _ _ e' He'), Hsum, Hw. by rewrite (path_sum_cons _ _ _ _ _ e He).
Qed.

Lemma path_from_to_rev m g x y p :
  symmetric m g → path_from_to g x y p →
  path_from_to g y x (rev p) ∧ path_sum (Edge.get m) g (rev p) = path_sum (Edge.get m) g p.
Proof.
  intros Hsym (Hhd & Hlast & Hp). destruct (path_rev m g p Hsym Hp) as [Hrev Hsum].
  split; [|done]. rewrite rev_alt. change (rev_append p []) with (reverse p).
  split_and!.
  - by rewrite head_reverse.
  - by rewrite last_reverse.
  - unfold reverse. by rewrite <- rev_alt.
Qed.


Lemma is_symmetric_spec m g : is_symmetric m g = true → symmetric m g.
Proof.
  intros Hall x y e (adj & Hadj%dict_lookup_elem & He%dict_lookup_elem)%edge_getitem.
  apply (forallb_elem _ _ _ Hall) in Hadj. simpl in Hadj.
  apply (forallb_elem _ _ _ Hadj) in He. simpl in He.
  destruct (edge g y x) as [e'|]; [|done]. apply bool_decide_eq_true in He. eauto.
Qed.


(** ** [get_best_path] on any table *)

Lemma append_cons c s t : String c s +:+ t = String c (s +:+ t).
Proof. reflexivity. Qed.

Lemma append_assoc (s t r : string) : (s +:+ t) +:+ r = s +:+ (t +:+ r).
Proof. induction s as [|c s IH]; [done|]. by rewrite !append_cons, IH. Qed.

Lemma drop_last_app (s t : string) : t ≠ "" → drop_last (s +:+ t) = s +:+ drop_last t.
Proof.
  intros Ht. induction s as [|c s IH]; [done|]. rewrite !append_cons. simpl. rewrite IH.
  destruct (s +:+ t) eqn:E; [|done]. destruct s; [done|discriminate].
Qed.

Lemma fold_dashes (l : list string) : ∀ acc,
  fold_left (λ detailed_path node, detailed_path +:+ (node +:+ "-")) l acc =
  acc +:+ fold_right (λ node rest, node +:+ "-" +:+ rest) "" l.
Proof.
  induction l as [|x l IH]; intros acc; simpl.
  - induction acc as [|c acc IHacc]; [done|]. by rewrite append_cons, <- IHacc.
  - by rewrite IH, !append_assoc.
Qed.

Lemma join_path_join (l : list vertex) : join_path l = String.concat "-" l.
Proof.
  unfold join_path. rewrite fold_dashes. change ("" +:+ ?x) with x.
  induction l as [|x [|y l] IH].
  - done.
  - simpl. apply drop_last_snoc.
  - change (fold_right _ _ (x :: y :: l)) with
      (x +:+ "-" +:+ fold_right (λ node rest, node +:+ "-" +:+ rest) "" (y :: l)).
    change (String.concat "-" (x :: y :: l)) with (x +:+ "-" +:+ String.concat "-" (y :: l)).
    rewrite <- IH, (drop_last_app x), (drop_last_app "-"); [done| |done].
    simpl. destruct y; discriminate.
Qed.

(** X9. The rendering is a join.  The text that lines 143-147 build from
    a sequence of labels is the labels joined by ["-"], what
    ["-".join(path[::-1])] gives; for no label, the empty text. *)
Theorem join_path_concat (l : list vertex) : join_path l = String.concat "-" l.
Proof. apply join_path_join. Qed.

Lemma walk_back_chain (nodes : gmap vertex Node.t) fuel : ∀ d acc path,
  walk_back fuel nodes d acc = Ok path →
  ∃ tail, chain nodes d tail ∧ (length tail < fuel)%nat ∧ path = acc ++ tail.
Proof.
  induction fuel as [|fuel IH]; intros d acc path; simpl; [done|]. unfold nodes_get.
  destruct (nodes !! d) as [n|] eqn:Hd; simpl; [|done].
  destruct (Node.best_neighbour n) as [p|] eqn:Hp.
  - intros (tail & Hch & Hlen & ->)%IH. exists (p :: tail). split_and!.
    + by eapply chain_step.
    + simpl. lia.
    + by rewrite <- app_assoc.
  - intros [= <-]. exists []. split_and!; [by eapply chain_end|simpl; lia|by rewrite app_nil_r].
Qed.

(** X10. What [get_best_path] returns, on any table.  The loop of lines
    136-142 returns exactly when following [best_neighbour] from the
    destination ends at a vertex without predecessor (within the fuel), and
    the answer is then the vertices met, last one first, joined by ["-"]. *)
Theorem get_best_path_spec (nodes : gmap vertex Node.t) (destination : vertex)
    (fuel : nat) (text : string) :
  get_best_path fuel nodes destination = Ok text ↔
  ∃ tail, chain nodes destination tail ∧ (length tail < fuel)%nat ∧
    best_path fuel nodes destination = Ok (rev (destination :: tail)) ∧
    text = String.concat "-" (rev (destination :: tail)).
Proof.
  split.
  - unfold get_best_path, best_path.
    intros (rpath & (path & Hw & [= <-])%bind_ok & [= <-])%bind_ok.
    apply walk_back_chain in Hw as (tail & Hch & Hlen & ->).
    exists tail. split_and!; [done|done| |apply join_path_join].
    by rewrite (chain_walk_back nodes destination tail Hch fuel [destination] Hlen).
  - intros (tail & Hch & Hlen & _ & ->).
    destruct (best_path_chain nodes destination tail fuel Hch Hlen) as [_ ->].
    by rewrite join_path_join.
Qed.

Lemma chain_entries (nodes : gmap vertex Node.t) v tail :
  chain nodes v tail → ∀ x, x ∈ v :: tail → is_Some (nodes !! x).
Proof.
  induction 1 as [v n Hv Hnone|v n p tail Hv Hp Hch IH]; intros x [->|Hx]%elem_of_cons;
    eauto. by apply elem_of_nil in Hx.
Qed.

(** A table in which every entry names a predecessor that has an entry. *)
Definition all_linked (nodes : gmap vertex Node.t) : Prop :=
  ∀ v n, nodes !! v = Some n →
    ∃ p, Node.best_neighbour n = Some p ∧ is_Some (nodes !! p).

(** X11. No guard against cycles.  On a table in which every entry names a
    predecessor that has an entry, so that the links run in a circle, the
    loop of [get_best_path] never ends: no amount of fuel gives a result or
    an exception. *)
Theorem get_best_path_loops (nodes : gmap vertex Node.t) (destination : vertex) :
  all_linked nodes → is_Some (nodes !! destination) →
  ∀ fuel, get_best_path fuel nodes destination = OutOfFuel.
Proof.
  intros Hall Hd fuel. unfold get_best_path, best_path.
  cut (∀ d acc, is_Some (nodes !! d) → walk_back fuel nodes d acc = OutOfFuel).
  { intros H. by rewrite H. }
  induction fuel as [|fuel IH]; intros d acc [n Hn]; simpl; [done|].
  unfold nodes_get. rewrite Hn. simpl.
  destruct (Hall d n Hn) as (p & -> & Hp). by apply IH.
Qed.

Lemma get_best_path_loops_witness :
  get_best_path 1000
    (<["A" := Node.Make (Fin 1) (Fin 1) (Some "B")]>
       (<["B" := Node.Make (Fin 1) (Fin 1) (Some "A")]> ∅)) "A" = OutOfFuel.
Proof.
  refine (get_best_path_loops _ "A" _ _ 1000).
  - intros v n Hv.
    destruct (decide ("A" = v)) as [<-|HA]; [|destruct (decide ("B" = v)) as [<-|HB]].
    + rewrite lookup_insert_eq in Hv. injection Hv as <-. exists "B". split; [done|].
      rewrite lookup_insert_ne, lookup_insert_eq by done. eauto.
    + rewrite lookup_insert_ne, lookup_insert_eq in Hv by done. injection Hv as <-.
      exists "A". split; [done|]. rewrite lookup_insert_eq. eauto.
    + rewrite lookup_insert_ne, lookup_insert_ne, lookup_empty in Hv by done. done.
  - rewrite lookup_insert_eq. eauto.
Defined.

(** ** The reports *)

(** In a result on a graph with positive weights, the predecessor chain of
    a vertex is shorter than the list of keys. *)
Lemma chain_short m g s nodes d tail :
  is_dict g = true → positive_weights g = true →
  calculate_shortest_paths m g s = Ok nodes → chain nodes d tail →
  (length tail < length (keys g))%nat.
Proof.
  intros Hd Hpos Hn Hch. pose proof (nonneg_primary m g (positive_nonneg g Hpos)) as Hw.
  destruct (calculate_inv m g s nodes Hd Hw Hn) as (nodes_r & u_r & [Hcore Hrel]).
  destruct (core_dom _ _ _ _ _ _ _ Hcore) as [Hdom _].
  assert (NoDup (d :: tail)) as Hnd.
  { eapply (chain_NoDup m g s (λ a b e, primary_nonneg_spec m g a b e Hw)); [|done|done].
    intros a b e. by apply positive_weights_spec. }
  assert (length (d :: tail) ≤ length (keys g))%nat as Hlen; [|simpl in Hlen; lia].
  apply submseteq_length, NoDup_submseteq; [done|].
  intros x Hx. apply Hdom. by eapply chain_entries.
Qed.



(** What both report functions do after the run, for a destination that
    can be reached. *)
Lemma report_of_run m g s d nodes fuel :
  is_dict g = true → positive_weights g = true → s ∈ keys g →
  calculate_shortest_paths m g s = Ok nodes → reachable g s d →
  (length (keys g) ≤ fuel)%nat →
  ∃ path dist cost n,
    path_from_to g s d path ∧ NoDup path ∧
    path_sum Edge.distance g path = Fin dist ∧ path_sum Edge.cost g path = Fin cost ∧
    (∀ p, path_from_to g s d p →
       Num.le (Node.get m (Node.Make (Fin cost) (Fin dist) None)) (path_sum (Edge.get m) g p)) ∧
    get_best_path fuel nodes d = Ok (String.concat "-" path) ∧
    nodes !! d = Some n ∧ Node.distance n = Fin dist ∧ Node.cost n = Fin cost.
Proof.
  intros Hd Hpos Hs Hn Hreach Hfuel.
  pose proof (nonneg_primary m g (positive_nonneg g Hpos)) as Hw.
  destruct (calculate_inv m g s nodes Hd Hw Hn) as (nodes_r & u_r & Hinv).
  destruct (dijkstra_optimal m g s nodes_r u_r nodes d Hw Hinv Hreach)
    as (n & x & tail & Hv & Hx & Hch & Hpath & Hsd & Hsc & Hmin).
  pose proof (chain_short m g s nodes d tail Hd Hpos Hn Hch) as Hlen.
  destruct Hinv as [Hcore _].
  destruct (core_finite m g s (λ a b e, primary_nonneg_spec m g a b e Hw)
              nodes_r u_r nodes [] d n Hcore Hv) as [[dist Hdist] [cost Hcost]];
    [by eexists|].
  exists (rev (d :: tail)), dist, cost, n. split_and!; try done.
  - apply NoDup_ListNoDup, List.NoDup_rev, NoDup_ListNoDup.
    eapply (chain_NoDup m g s (λ a b e, primary_nonneg_spec m g a b e Hw)); [|done|done].
    intros a b e. by apply positive_weights_spec.
  - congruence.
  - congruence.
  - intros p Hp. specialize (Hmin p Hp).
    replace (Node.get m (Node.Make (Fin cost) (Fin dist) None)) with (Fin x); [done|].
    destruct m; simpl in *; congruence.
  - destruct (best_path_chain nodes d tail fuel Hch) as [_ ->]; [lia|].
    by rewrite join_path_join.
Qed.





(** The two reports of the example, as they are printed. *)
Example diverging_reports :
  print_shortest_path 4 diverging_graph "A" "D" =
    Ok ("Shortest path between A and D:" +:+ newline +:+ "Path: A-B-D " +:+ newline +:+
        "Distance: 2" +:+ newline +:+ "Cost of travel: 20" +:+ newline +:+ newline) ∧
  print_cheapest_path 4 diverging_graph "A" "D" =
    Ok ("Cheapest path between A and D:" +:+ newline +:+ "Path: A-C-D " +:+ newline +:+
        "Distance: 10" +:+ newline +:+ "Cost of travel: 2" +:+ newline +:+ newline).
Proof. split; vm_compute; reflexivity. Qed.

(** X15. Reports for a source that is not in the graph.  Both report
    functions end in the [KeyError] of line 86 for the source, and print
    nothing. *)
Theorem report_unknown_source (g : graph) (source destination : vertex) (fuel : nat) :
  source ∉ keys g →
  print_shortest_path fuel g source destination = Raise (KeyError source) ∧
  print_cheapest_path fuel g source destination = Raise (KeyError source).
Proof.
  intros Hs. destruct (start_absent g source Hs) as (nodes0 & Hi & Hst).
  unfold print_shortest_path, print_cheapest_path, calculate_shortest_paths.
  by rewrite Hi, Hst.
Qed.

Lemma report_unknown_source_witness :
  print_shortest_path 4 diverging_graph "Z" "D" = Raise (KeyError "Z") ∧
  print_cheapest_path 4 diverging_graph "Z" "D" = Raise (KeyError "Z").
Proof.
  apply report_unknown_source.
  intros H. by repeat (apply elem_of_cons in H as [H|H]; [done|]); apply elem_of_nil in H.
Defined.

(** The steps of a report function for a destination that is not a key. *)
Lemma run_no_destination m g s d fuel :
  is_dict g = true → nonneg_weights g = true → closed g = true →
  s ∈ keys g → d ∉ keys g → (0 < fuel)%nat →
  ∃ nodes, calculate_shortest_paths m g s = Ok nodes ∧
    get_best_path fuel nodes d = Raise (KeyError d).
Proof.
  intros Hd Hw Hc Hs Hdest Hfuel.
  destruct (calculate_shortest_paths_total m g s Hd (nonneg_primary m g Hw) Hc Hs)
    as [nodes Hn].
  exists nodes. split; [done|].
  destruct (inv_any_result m g s nodes Hn) as [[Hdom _] _].
  destruct fuel as [|fuel]; [lia|]. unfold get_best_path, best_path. simpl.
  unfold nodes_get. destruct (nodes !! d) eqn:E; [|done].
  destruct Hdest. apply Hdom. eauto.
Qed.

(** X16. Reports for a destination that is not in the graph.  When the
    run itself returns, both report functions end in the [KeyError] that
    [get_best_path] raises for the destination, and print nothing. *)
Theorem report_unknown_destination (g : graph) (source destination : vertex) (fuel : nat) :
  is_dict g = true → nonneg_weights g = true → closed g = true →
  source ∈ keys g → destination ∉ keys g → (0 < fuel)%nat →
  print_shortest_path fuel g source destination = Raise (KeyError destination) ∧
  print_cheapest_path fuel g source destination = Raise (KeyError destination).
Proof.
  intros Hd Hw Hc Hs Hdest Hfuel.
  pose proof (λ m, run_no_destination m g source destination fuel Hd Hw Hc Hs Hdest Hfuel)
    as Hrun.
  unfold print_shortest_path, print_cheapest_path.
  destruct (Hrun Distance) as (nodes & -> & Hget). destruct (Hrun Cost) as (nodes' & -> & Hget').
  simpl. by rewrite Hget, Hget'.
Qed.

Lemma report_unknown_destination_witness :
  print_shortest_path 4 diverging_graph "A" "Z" = Raise (KeyError "Z") ∧
  print_cheapest_path 4 diverging_graph "A" "Z" = Raise (KeyError "Z").
Proof.
  apply report_unknown_destination.
  - reflexivity.
  - reflexivity.
  - reflexivity.
  - by left.
  - intros H. by repeat (apply elem_of_cons in H as [H|H]; [done|]); apply elem_of_nil in H.
  - lia.
Defined.

(** ** [create_graph] *)

Lemma astype_int_ok strings :
  forallb (λ n, n <? 2 ^ 63) (map (λ s, int_of_digits s 0) strings) = true →
  astype_int strings = Ok (map (λ s, int_of_digits s 0) strings).
Proof.
  induction strings as [|s strings IH]; simpl; [done|].
  intros [Hs Hrest]%andb_true_iff. apply Z.ltb_lt in Hs.
  destruct (2 ^ 63 <=? int_of_digits s 0) eqn:E; [apply Z.leb_le in E; lia|].
  by rewrite (IH Hrest).
Qed.

Lemma astype_int_fits strings numbers :
  astype_int strings = Ok numbers → forallb (λ n, n <? 2 ^ 63) numbers = true.
Proof.
  revert numbers. induction strings as [|s strings IH]; intros numbers; simpl.
  - by intros [= <-].
  - destruct (2 ^ 63 <=? int_of_digits s 0) eqn:E; [done|].
    intros (rest & Hrest & [= <-])%bind_ok. simpl. rewrite (IH rest Hrest).
    apply Z.leb_gt in E. apply andb_true_iff. split; [by apply Z.ltb_lt|done].
Qed.

(** What lines 50 to 54 do with a cell, by its readings. *)
Lemma convert_cell_cases row k values :
  (cell_ok values = false ∧ ∃ e, convert_cell row k values = Raise e) ∨
  (cell_ok values = true ∧ 0 ∈ readings values ∧
     convert_cell row k values = Ok (delitem row k)) ∨
  (cell_ok values = true ∧ (0 ∉ readings values) ∧
     ∃ n0 n1 rest, readings values = n0 :: n1 :: rest ∧
       convert_cell row k values =
         Ok (setitem row k (Weights (Edge.Make (Fin n0) (Fin (wrap64 (n0 * n1))))))).
Proof.
  unfold cell_ok, convert_cell, readings.
  destruct (forallb _ (map _ (findall_digits values ""))) eqn:Hfit; simpl.
  - rewrite (astype_int_ok _ Hfit). simpl.
    destruct (bool_decide (0 ∈ _)) eqn:Hz; simpl.
    + right. left. by apply bool_decide_eq_true in Hz.
    + apply bool_decide_eq_false in Hz.
      destruct (map _ (findall_digits values "")) as [|n0 [|n1 rest]] eqn:E; simpl.
      * left. eauto.
      * left. eauto.
      * right. right. split_and!; [done|done|]. eauto.
  - left. split; [done|].
    destruct (astype_int (findall_digits values "")) as [numbers|e|] eqn:E; simpl; [|eauto|].
    + pose proof (astype_int_readings _ _ E) as ->.
      apply astype_int_fits in E. congruence.
    + clear -E. exfalso. revert E. induction (findall_digits values "") as [|s l IH]; simpl.
      * done.
      * destruct (2 ^ 63 <=? int_of_digits s 0); [done|].
        destruct (astype_int l); simpl; [done|done|]. by intros _; apply IH.
Qed.

Lemma convert_cells_ok items : ∀ row,
  forallb (λ item, cell_ok item.2) items = true → ∃ row', convert_cells items row = Ok row'.
Proof.
  induction items as [|[k values] items IH]; intros row; simpl; [eauto|].
  intros [Hcell Hrest]%andb_true_iff.
  destruct (convert_cell_cases row k values)
    as [[Hno _]|[(_ & _ & ->)|(_ & _ & n0 & n1 & rest & _ & ->)]]; simpl; [congruence| |];
    by apply IH.
Qed.

Lemma convert_cells_cells_ok items : ∀ row row',
  convert_cells items row = Ok row' → forallb (λ item, cell_ok item.2) items = true.
Proof.
  induction items as [|[k values] items IH]; intros row row'; simpl; [done|].
  intros (row1 & H1 & Hrest)%bind_ok. rewrite (IH row1 row' Hrest).
  destruct (convert_cell_cases row k values)
    as [[_ [e He]]|[(-> & _)|(-> & _)]]; [congruence|done|done].
Qed.

Lemma convert_row_shape row p adj :
  is_dict row = true → convert_row row = Ok (p, adj) →
  ∃ rest, row = ("POINT", p) :: rest ∧ forallb (λ item, cell_ok item.2) rest = true.
Proof.
  intros Hd. pose proof (is_dict_NoDup row Hd) as Hnd. unfold convert_row, getitem.
  intros (converted & Hc & (sp & Hsp & H)%bind_ok)%bind_ok.
  destruct (dict_lookup converted "POINT") as [c|] eqn:Hp; [|done]. injection Hsp as ->.
  destruct sp as [t|e]; [|done]. injection H as -> _.
  destruct (convert_cells_text _ _ _ "POINT" p Hc) as [Hrow Hnotin]; [by rewrite keys_text|done|].
  rewrite dict_lookup_text in Hrow.
  destruct row as [|[k v] rest]; [done|]. simpl in *. exists rest.
  split; [|by eapply convert_cells_cells_ok].
  destruct (decide (k = "POINT")) as [->|Hne]; [simpl in Hrow; congruence|].
  destruct (dict_lookup rest "POINT") eqn:E; [|done].
  destruct Hnotin. by eapply dict_lookup_keys.
Qed.

Lemma convert_row_ok row :
  is_dict row = true → row_ok row = true → ∃ p adj, convert_row row = Ok (p, adj).
Proof.
  intros Hd%is_dict_NoDup Hok. destruct row as [|[k v] rest]; [done|]. simpl in Hok.
  apply andb_true_iff in Hok as [->%bool_decide_eq_true Hrest].
  unfold convert_row. simpl.
  destruct (convert_cells_ok rest (("POINT", Text v) :: map (λ item, (item.1, Text item.2)) rest)
              Hrest) as [converted Hc].
  rewrite Hc. simpl. unfold getitem.
  rewrite (convert_cells_other rest _ converted "POINT" Hc).
  - simpl. eauto.
  - simpl in Hd. by apply NoDup_cons in Hd as [? _].
Qed.

Lemma add_rows_each rows : ∀ connections g row,
  add_rows rows connections = Ok g → row ∈ rows → ∃ p adj, convert_row row = Ok (p, adj).
Proof.
  intros connections g row Hg [j Hj]%list_elem_of_lookup_1.
  destruct (add_rows_converts rows connections g j row Hg Hj) as (p & adj & ? & _). eauto.
Qed.

Lemma add_rows_ok rows : ∀ connections,
  (∀ row, row ∈ rows → ∃ p adj, convert_row row = Ok (p, adj)) →
  ∃ g, add_rows rows connections = Ok g.
Proof.
  induction rows as [|r rows IH]; intros connections Hall; simpl; [eauto|].
  destruct (Hall r) as (p & adj & ->); [by left|]. simpl. apply IH.
  intros row Hrow. apply Hall. by right.
Qed.



(** *** The numbers of a cell *)

Lemma digits_snoc run c : digits run = true → is_digit c = true →
  digits (run +:+ String c EmptyString) = true.
Proof.
  intros Hrun Hc. induction run as [|c' run IH]; simpl in *.
  - by rewrite Hc.
  - apply andb_true_iff in Hrun as [-> Hrun]. simpl. auto.
Qed.

Lemma findall_digits_digits values : ∀ run s,
  digits run = true → s ∈ findall_digits values run → digits s = true.
Proof.
  induction values as [|c values IH]; intros run s Hrun; simpl.
  - destruct (decide (run = "")); [by intros ?%elem_of_nil|].
    by intros ->%list_elem_of_singleton.
  - destruct (is_digit c) eqn:Hc.
    + apply IH. by apply digits_snoc.
    + destruct (decide (run = "")); [by apply IH|].
      intros [->|Hin]%elem_of_cons; [done|]. by apply (IH "").
Qed.

Lemma int_of_digits_nonneg s : ∀ acc,
  digits s = true → 0 ≤ acc → 0 ≤ int_of_digits s acc.
Proof.
  induction s as [|c s IH]; intros acc; simpl; [done|].
  intros [Hc Hs]%andb_true_iff Hacc. apply IH; [done|].
  unfold is_digit in Hc. apply andb_true_iff in Hc as [Hc _]. apply Nat.leb_le in Hc. lia.
Qed.

Lemma readings_nonneg values n : n ∈ readings values → 0 ≤ n.
Proof.
  unfold readings. intros (s & -> & Hs)%list_elem_of_fmap.
  apply int_of_digits_nonneg; [|done]. by apply (findall_digits_digits values "" s).
Qed.

(** *** Where an entry of the result comes from *)

(** The edge that line 54 makes of the readings [n0], [n1]. *)
Lemma convert_cells_value items : ∀ row row' k c,
  convert_cells items row = Ok row' → NoDup (keys row) →
  dict_lookup row' k = Some c →
  ((k ∉ keys items) ∧ dict_lookup row k = Some c) ∨
  ∃ values n0 n1 rest, (k, values) ∈ items ∧ cell_ok values = true ∧
    (0 ∉ readings values) ∧ readings values = n0 :: n1 :: rest ∧
    c = Weights (Edge.Make (Fin n0) (Fin (wrap64 (n0 * n1)))).
Proof.
  induction items as [|[k1 v1] items IH]; intros row row' k c; simpl.
  - intros [= <-] _ Hk. left. split; [apply not_elem_of_nil|done].
  - intros (row1 & H1 & Hrest)%bind_ok Hnd Hk.
    destruct (IH row1 row' k c Hrest) as [[Hnotin Hk1]|(values & n0 & n1 & rest & Hin & H)];
      [by eapply convert_cell_NoDup|done| |].
    + destruct (decide (k1 = k)) as [->|Hne].
      * destruct (convert_cell_cases row k v1)
          as [[_ [e He]]|[(_ & _ & Hc)|(Hok & Hnz & n0 & n1 & rest & Hr & Hc)]];
          rewrite H1 in Hc || rewrite H1 in He; [done| |].
        -- injection Hc as ->. by rewrite dict_lookup_delitem_eq in Hk1.
        -- injection Hc as ->. rewrite dict_lookup_setitem_eq in Hk1. injection Hk1 as <-.
           right. exists v1, n0, n1, rest. split_and!; [by left|done..].
      * left. rewrite (convert_cell_other row k1 v1 row1 k H1 Hne) in Hk1. split; [|done].
        intros [?|?]%elem_of_cons; done.
    + right. exists values, n0, n1, rest. split; [by right|done].
Qed.

Lemma cell_ok_fits values n : cell_ok values = true → n ∈ readings values → n < 2 ^ 63.
Proof.
  unfold cell_ok. intros [Hfit _]%andb_true_iff Hn.
  rewrite forallb_forall in Hfit. apply Z.ltb_lt, Hfit. by apply list_elem_of_In.
Qed.

Lemma convert_row_edge row p adj k c :
  is_dict row = true → convert_row row = Ok (p, adj) → dict_lookup adj k = Some c →
  ∃ values n0 n1 rest, k ≠ "POINT" ∧ dict_lookup row k = Some values ∧
    (0 ∉ readings values) ∧ readings values = n0 :: n1 :: rest ∧
    0 < n0 < 2 ^ 63 ∧ 0 < n1 < 2 ^ 63 ∧
    c = Weights (Edge.Make (Fin n0) (Fin (wrap64 (n0 * n1)))).
Proof.
  intros Hd Hrow Hk.
  destruct (convert_row_shape row p adj Hd Hrow) as (cells & -> & _).
  apply is_dict_NoDup in Hd. revert Hrow. unfold convert_row, getitem.
  intros (converted & Hc & (sp & Hsp & H)%bind_ok)%bind_ok.
  destruct sp as [t|e]; [|done]. injection H as _ <-.
  assert (NoDup (keys (map (λ item, (item.1, Text item.2)) (("POINT", p) :: cells)))) as Hnd.
  { by rewrite keys_text. }
  assert (NoDup (keys converted)) as Hconv by by eapply convert_cells_NoDup.
  assert (k ≠ "POINT") as Hne.
  { intros ->. by rewrite dict_lookup_delitem_eq in Hk. }
  rewrite dict_lookup_delitem_ne in Hk by done.
  destruct (convert_cells_value _ _ _ k c Hc Hnd Hk)
    as [[Hnotin Hhere]|(values & n0 & n1 & rest & Hin & Hok & Hnz & Hr & ->)].
  - rewrite dict_lookup_text in Hhere. simpl in Hhere, Hnotin.
    destruct (decide ("POINT" = k)) as [|_]; [done|].
    destruct (dict_lookup cells k) as [v|] eqn:E; [|done].
    destruct Hnotin. by eapply dict_lookup_keys.
  - simpl in Hin. exists values, n0, n1, rest.
    assert (n0 ∈ readings values) as H0 by (rewrite Hr; left).
    assert (n1 ∈ readings values) as H1 by (rewrite Hr; right; left).
    pose proof (readings_nonneg _ _ H0). pose proof (readings_nonneg _ _ H1).
    pose proof (cell_ok_fits _ _ Hok H0). pose proof (cell_ok_fits _ _ Hok H1).
    assert (n0 ≠ 0) by (intros ->; done). assert (n1 ≠ 0) by (intros ->; done).
    split_and!; [done| |done|done|lia..|done].
    apply dict_lookup_NoDup; [done|]. by right.
Qed.

Lemma add_rows_from rows : ∀ connections g p adj,
  add_rows rows connections = Ok g → dict_lookup g p = Some adj →
  dict_lookup connections p = Some adj ∨
  ∃ row, row ∈ rows ∧ convert_row row = Ok (p, adj).
Proof.
  induction rows as [|r rows IH]; intros connections g p adj; simpl.
  - intros [= <-]. by left.
  - intros ([p0 adj0] & Hr & Hrest)%bind_ok Hp.
    destruct (IH _ g p adj Hrest Hp) as [Hhere|(row & Hin & Hrow)].
    + destruct (decide (p0 = p)) as [->|Hne].
      * rewrite dict_lookup_setitem_eq in Hhere. injection Hhere as ->.
        right. exists r. split; [by left|done].
      * rewrite dict_lookup_setitem_ne in Hhere by done. by left.
    + right. exists row. split; [by right|done].
Qed.

Lemma add_rows_has rows : ∀ connections g p,
  add_rows rows connections = Ok g →
  is_Some (dict_lookup connections p) ∨
    (∃ row adj, row ∈ rows ∧ convert_row row = Ok (p, adj)) →
  is_Some (dict_lookup g p).
Proof.
  induction rows as [|r rows IH]; intros connections g p; simpl.
  - intros [= <-] [?|(row & adj & ?%elem_of_nil & _)]; done.
  - intros ([p0 adj0] & Hr & Hrest)%bind_ok Hp. apply (IH _ g p Hrest).
    destruct (decide (p0 = p)) as [->|Hne].
    + left. rewrite dict_lookup_setitem_eq. eauto.
    + rewrite dict_lookup_setitem_ne by done.
      destruct Hp as [?|(row & adj & [->|Hin]%elem_of_cons & Hrow)]; [by left| |].
      * congruence.
      * right. eauto.
Qed.

(** X18. Where an edge of the built graph comes from.  For rows that are
    dictionaries, every entry [g[p][k]] of the graph that [create_graph]
    returns was made from the cell of column [k] (not the first column) in
    a row whose ["POINT"] is [p]; that cell has at least two numbers, none
    of them zero; the entry's distance is the first number and its cost
    the 64-bit product of the first two, both numbers being positive and
    below 2^63.  No text cell and no other value is left in the graph. *)
Theorem create_graph_edges (dictionary : list (list (string * string)))
    (g : list (string * list (string * cell))) (p k : string)
    (adj : list (string * cell)) (c : cell) :
  Forall (λ row, is_dict row = true) dictionary →
  create_graph dictionary = Ok g →
  dict_lookup g p = Some adj → dict_lookup adj k = Some c →
  ∃ row values n0 n1 rest,
    row ∈ dictionary ∧ dict_lookup row "POINT" = Some p ∧
    k ≠ "POINT" ∧ dict_lookup row k = Some values ∧
    (0 ∉ readings values) ∧ readings values = n0 :: n1 :: rest ∧
    0 < n0 < 2 ^ 63 ∧ 0 < n1 < 2 ^ 63 ∧
    c = Weights (Edge.Make (Fin n0) (Fin (wrap64 (n0 * n1)))).
Proof.
  intros Hdicts Hg Hp Hk. rewrite Forall_forall in Hdicts.
  destruct (add_rows_from dictionary [] g p adj Hg Hp) as [|(row & Hin & Hrow)]; [done|].
  destruct (convert_row_edge row p adj k c (Hdicts row Hin) Hrow Hk)
    as (values & n0 & n1 & rest & Hne & Hv & Hnz & Hr & H0 & H1 & ->).
  exists row, values, n0, n1, rest.
  pose proof (convert_row_point row p adj (Hdicts row Hin) Hrow). done.
Qed.

Lemma create_graph_edges_witness :
  ∃ row values n0 n1 rest,
    row ∈ example_table ∧ dict_lookup row "POINT" = Some "A" ∧
    "C" ≠ "POINT" ∧ dict_lookup row "C" = Some values ∧
    (0 ∉ readings values) ∧ readings values = n0 :: n1 :: rest ∧
    0 < n0 < 2 ^ 63 ∧ 0 < n1 < 2 ^ 63 ∧
    Weights (fin_edge 15 345) = Weights (Edge.Make (Fin n0) (Fin (wrap64 (n0 * n1)))).
Proof.
  apply (create_graph_edges example_table
           [ ("A", [("B", Weights (fin_edge 10 200)); ("C", Weights (fin_edge 15 345))]);
             ("B", [("A", Weights (fin_edge 10 200))]);
             ("C", [("A", Weights (fin_edge 15 345))]) ]
           "A" "C" [("B", Weights (fin_edge 10 200)); ("C", Weights (fin_edge 15 345))]).
  - repeat constructor.
  - vm_compute. reflexivity.
  - reflexivity.
  - reflexivity.
Defined.

(** X19. The vertices of the built graph.  For rows that are
    dictionaries, the keys of the graph that [create_graph] returns are
    exactly the ["POINT"] values of the rows: a point that no other row
    mentions but as a column is not a vertex. *)
Theorem create_graph_vertices (dictionary : list (list (string * string)))
    (g : list (string * list (string * cell))) (p : string) :
  Forall (λ row, is_dict row = true) dictionary →
  create_graph dictionary = Ok g →
  p ∈ keys g ↔ ∃ row, row ∈ dictionary ∧ dict_lookup row "POINT" = Some p.
Proof.
  intros Hdicts Hg. rewrite Forall_forall in Hdicts. split.
  - intros [adj Hp]%keys_dict_lookup.
    destruct (add_rows_from dictionary [] g p adj Hg Hp) as [|(row & Hin & Hrow)]; [done|].
    exists row. split; [done|]. eapply convert_row_point; [by apply Hdicts|done].
  - intros (row & Hin & Hp).
    destruct (add_rows_each dictionary [] g row Hg Hin) as (p' & adj & Hrow).
    pose proof (convert_row_point row p' adj (Hdicts row Hin) Hrow) as Hp'.
    rewrite Hp in Hp'. injection Hp' as <-.
    destruct (add_rows_has dictionary [] g p Hg) as [adj' Hadj]; [right; eauto|].
    by eapply dict_lookup_keys.
Qed.

Lemma create_graph_vertices_witness :
  "B" ∈ keys [ ("A", [("B", Weights (fin_edge 10 200)); ("C", Weights (fin_edge 15 345))]);
               ("B", [("A", Weights (fin_edge 10 200))]);
               ("C", [("A", Weights (fin_edge 15 345))]) ] ↔
  ∃ row, row ∈ example_table ∧ dict_lookup row "POINT" = Some "B".
Proof.
  apply (create_graph_vertices example_table).
  - repeat constructor.
  - vm_compute. reflexivity.
Defined.

(** *** The built graph and the engine *)

Lemma convert_row_NoDup row p adj :
  is_dict row = true → convert_row row = Ok (p, adj) → NoDup (keys adj).
Proof.
  intros Hd%is_dict_NoDup. unfold convert_row.
  intros (converted & Hc & (sp & Hsp & H)%bind_ok)%bind_ok.
  destruct sp as [t|e]; [|done]. injection H as _ <-.
  apply delitem_NoDup. eapply convert_cells_NoDup; [done|]. by rewrite keys_text.
Qed.

Lemma add_rows_NoDup rows : ∀ connections g,
  add_rows rows connections = Ok g → NoDup (keys connections) → NoDup (keys g).
Proof.
  induction rows as [|r rows IH]; intros connections g; simpl.
  - by intros [= <-].
  - intros ([p0 adj0] & Hr & Hrest)%bind_ok Hnd.
    eapply IH; [done|]. by apply setitem_NoDup.
Qed.

Lemma adjacency_of_cells (pb : Edge.t → bool) (adj : list (string * cell)) :
  (∀ k c, (k, c) ∈ adj → ∃ e, c = Weights e ∧ pb e = true) →
  ∃ a : adjacency, adj = map (λ item, (item.1, Weights item.2)) a ∧
    forallb (λ item, pb item.2) a = true.
Proof.
  induction adj as [|[k c] adj IH]; intros Hall.
  - by exists [].
  - destruct (Hall k c) as (e & -> & He); [by left|].
    destruct IH as (a & -> & Ha); [intros k' c' Hin; apply (Hall k' c'); by right|].
    exists ((k, e) :: a). simpl. by rewrite He, Ha.
Qed.

Lemma graph_of_cells (pb : Edge.t → bool) (t : list (string * list (string * cell))) :
  (∀ p adj k c, (p, adj) ∈ t → (k, c) ∈ adj → ∃ e, c = Weights e ∧ pb e = true) →
  ∃ g : graph, t = cells_of g ∧ all_edges pb g = true.
Proof.
  induction t as [|[p adj] t IH]; intros Hall.
  - by exists [].
  - destruct (adjacency_of_cells pb adj) as (a & -> & Ha).
    { intros k c Hin. apply (Hall p adj k c); [by left|done]. }
    destruct IH as (g & -> & Hg).
    { intros p' adj' k c Hin. apply (Hall p' adj' k c). by right. }
    exists ((p, a) :: g). unfold all_edges in *. simpl. by rewrite Ha, Hg.
Qed.

Lemma keys_cells_of g : keys (cells_of g) = keys g.
Proof. unfold keys, cells_of. rewrite map_map. by apply map_ext. Qed.



(** ** The script *)

(** The three steps of a report function, when nothing is missing. *)
Lemma run_report m g s d fuel :
  is_dict g = true → positive_weights g = true → closed g = true →
  s ∈ keys g → d ∈ keys g → (length (keys g) ≤ fuel)%nat →
  ∃ nodes text n, calculate_shortest_paths m g s = Ok nodes ∧
    get_best_path fuel nodes d = Ok text ∧ nodes_get nodes d = Ok n.
Proof.
  intros Hd Hpos Hc Hs Hdest Hfuel.
  pose proof (nonneg_primary m g (positive_nonneg g Hpos)) as Hw.
  destruct (calculate_shortest_paths_total m g s Hd Hw Hc Hs) as [nodes Hn].
  destruct (calculate_inv m g s nodes Hd Hw Hn) as (nodes_r & u_r & [Hcore Hrel]).
  destruct (core_dom _ _ _ _ _ _ _ Hcore) as [Hdom _].
  destruct (core_chain _ _ _ _ _ _ _ Hcore d Hdest) as (tail & Hch & _).
  pose proof (chain_short m g s nodes d tail Hd Hpos Hn Hch) as Hlen.
  destruct (proj2 (Hdom d) Hdest) as [n Hv].
  exists nodes, (join_path (rev (d :: tail))), n. split_and!; [done| |].
  - apply best_path_chain; [done|lia].
  - unfold nodes_get. by rewrite Hv.
Qed.



Example main_without_destination :
  main 4 diverging_graph ["main.py"; "A"] = ([], Raise IndexError).
Proof. reflexivity. Qed.
